(** * Discord-AI-Bot: history cache, chunker and response orchestrator

    A shallow embedding of [main.py].  The module-level dictionary
    [conversation_history] becomes an explicit store that every operation
    takes and returns; Python strings are [string]s whose characters are
    read as code points below 256; the [while] loop of [split_message] runs
    on fuel, [None] meaning that the fuel ran out before the loop exited.
    A handler is suspended at its [await]s; what the other handlers and
    [/reset] do to the dictionary in the meantime is part of the
    surroundings the handler runs in. *)

From Stdlib Require Import ZArith Ascii String.
From stdpp Require Import gmap strings list pretty.

Local Open Scope Z_scope.

(** ** Python strings *)

(** Index normalisation of a slice bound [k] against a sequence of length
    [n]: a negative bound counts from the end, and the result is clamped
    to [0..n]. *)
Definition slice_bound (n : nat) (k : Z) : nat :=
  if k <? 0 then Z.to_nat (Z.max 0 (Z.of_nat n + k))
  else Z.to_nat (Z.min k (Z.of_nat n)).

Fixpoint str_take (n : nat) (s : string) : string :=
  match n, s with
  | S n', String c s' => String c (str_take n' s')
  | _, _ => ""
  end.

Fixpoint str_drop (n : nat) (s : string) : string :=
  match n, s with
  | S n', String _ s' => str_drop n' s'
  | _, _ => s
  end.

(** [text[:k]] and [text[k:]]. *)
Definition slice_to (s : string) (k : Z) : string :=
  str_take (slice_bound (String.length s) k) s.

Definition slice_from (s : string) (k : Z) : string :=
  str_drop (slice_bound (String.length s) k) s.

Definition newline : ascii := "010"%char.

(** Backward search for [c] among the indices [lo <= i < hi]. *)
Fixpoint rfind_between (c : ascii) (s : string) (lo hi : nat) : option nat :=
  match hi with
  | O => None
  | S h =>
      if (h <? lo)%nat then None
      else if decide (String.get h s = Some c) then Some h
      else rfind_between c s lo h
  end.

(** [s.rfind(c, start, stop)] for a one-character needle: the highest index
    in the normalised range holding [c], or [-1]. *)
Definition str_rfind (s : string) (c : ascii) (start stop : Z) : Z :=
  let n := String.length s in
  match rfind_between c s (slice_bound n start) (slice_bound n stop) with
  | Some i => Z.of_nat i
  | None => -1
  end.

(** [str.isspace] on the code points below 256. *)
Definition py_isspace (c : ascii) : bool :=
  let n := N_of_ascii c in
  ((9 <=? n) && (n <=? 13) || (28 <=? n) && (n <=? 32)
   || (n =? 133) || (n =? 160))%N.

Fixpoint str_lstrip (s : string) : string :=
  match s with
  | String c s' => if py_isspace c then str_lstrip s' else s
  | EmptyString => ""
  end.

Fixpoint str_rstrip (s : string) : string :=
  match s with
  | String c s' =>
      match str_rstrip s' with
      | EmptyString => if py_isspace c then "" else String c ""
      | r => String c r
      end
  | EmptyString => ""
  end.

(** [s.strip()] *)
Definition str_strip (s : string) : string := str_rstrip (str_lstrip s).

(** Left-to-right replacement of the non-overlapping occurrences of a
    non-empty [old]; [skip] counts the characters of the current match that
    are still to be passed over. *)
Fixpoint replace_go (old new s : string) (skip : nat) : string :=
  match s with
  | EmptyString => ""
  | String c s' =>
      match skip with
      | S k => replace_go old new s' k
      | O =>
          if String.prefix old s
          then new +:+ replace_go old new s' (String.length old - 1)
          else String c (replace_go old new s' 0)
      end
  end.

Fixpoint intersperse_str (new s : string) : string :=
  match s with
  | EmptyString => new
  | String c s' => new +:+ String c (intersperse_str new s')
  end.

(** [s.replace(old, new)] *)
Definition str_replace (s old new : string) : string :=
  match old with
  | EmptyString => intersperse_str new s
  | _ => replace_go old new s 0
  end.

(** ** Memory management *)

(** One stored message, [{"role": role, "content": content}]; the content
    is a string or, as [None], Python's [None]. *)
Record entry := Entry { role : string; content : option string }.

(** [collections.deque] built with a [maxlen]. *)
Record deque := Deque { items : list entry; maxlen : nat }.

Definition capacity : nat := 15.

(** [deque(maxlen=n)] *)
Definition deque_new (n : nat) : deque := {| items := []; maxlen := n |}.

(** [d.append(x)]: the element goes in on the right, and a deque that has
    grown past [maxlen] drops its leftmost element. *)
Definition deque_append (d : deque) (x : entry) : deque :=
  let grown := items d ++ [x] in
  {| items := if (maxlen d <? length grown)%nat then drop 1 grown else grown;
     maxlen := maxlen d |}.

(** [d.clear()] *)
Definition deque_clear (d : deque) : deque :=
  {| items := []; maxlen := maxlen d |}.

(** [conversation_history]: channel id to bounded history. *)
Abbreviation store := (gmap Z deque).

Definition initial_store : store := ∅.

Definition get_history (st : store) (channel_id : Z) : deque * store :=
  match st !! channel_id with
  | Some d => (d, st)
  | None => (deque_new capacity, <[channel_id := deque_new capacity]> st)
  end.

Definition add_to_history (st : store) (channel_id : Z) (r : string)
    (c : option string) : store :=
  let '(history, st') := get_history st channel_id in
  <[channel_id := deque_append history {| role := r; content := c |}]> st'.

Definition clear_history (st : store) (channel_id : Z) : store :=
  match st !! channel_id with
  | Some d => <[channel_id := deque_clear d]> st
  | None => st
  end.

(** What another handler or [/reset] can do to the dictionary while a
    handler is suspended: store a user or an assistant turn, look a channel
    up, clear a channel. *)
Inductive store_op :=
| UserTurn (channel_id : Z) (text : option string)
| AssistantTurn (channel_id : Z) (text : option string)
| Lookup (channel_id : Z)
| Clear (channel_id : Z).

Definition op_channel (op : store_op) : Z :=
  match op with
  | UserTurn cid _ | AssistantTurn cid _ | Lookup cid | Clear cid => cid
  end.

Definition run_op (st : store) (op : store_op) : store :=
  match op with
  | UserTurn cid text => add_to_history st cid "user" text
  | AssistantTurn cid text => add_to_history st cid "assistant" text
  | Lookup cid => (get_history st cid).2
  | Clear cid => clear_history st cid
  end.

Definition run_ops (st : store) (ops : list store_op) : store :=
  foldl run_op st ops.

(** ** Helper functions *)

Definition default_limit : Z := 1900.

(** The cut position chosen by one pass through the loop body. *)
Definition split_index (text : string) (limit : Z) : Z :=
  let i := str_rfind text newline 0 limit in
  if i =? -1 then limit else i.

(** The [while] loop of [split_message], with the chunks gathered so far. *)
Fixpoint split_loop (fuel : nat) (text : string) (limit : Z)
    (chunks : list string) : option (list string) :=
  if Z.of_nat (String.length text) >? limit then
    match fuel with
    | O => None
    | S fuel' =>
        let i := split_index text limit in
        split_loop fuel' (slice_from text i) limit (chunks ++ [slice_to text i])
    end
  else Some (chunks ++ [text]).

Definition split_message (fuel : nat) (text : string) (limit : Z)
    : option (list string) :=
  split_loop fuel text limit [].

(** Outcome of [client.chat.completions.create] followed by the read of
    [response.choices[0].message.content]: that content, a string or
    [None], or an [Exception] whose [str] is the given description. *)
Inductive api_result :=
| Completed (content : option string)
| Failed (description : string).

Definition system_msg : entry :=
  {| role := "system";
     content := Some "You are a helpful, intelligent assistant on a Discord server. Keep responses concise unless asked for detail. Use markdown formatting." |}.

Definition error_text (e : string) : string :=
  "**Error:** I encountered an issue connecting to the neural core (" +:+ e +:+ ").".

(** The request body built from the history, [[system_msg] + list(history)]. *)
Definition request_messages (history : deque) : list entry :=
  system_msg :: items history.

(** The world outside the handler: the bot's own user id, the completion
    API as a function of the request, whether entering
    [message.channel.typing()] goes through, whether [message.reply] and
    [message.channel.send] go through for a chunk, and what the other tasks
    do to the dictionary while the handler waits to enter [typing()] and
    while it waits for the completion. *)
Record environment := Environment {
  bot_user_id : Z;
  completion : list entry → api_result;
  typing_ok : bool;
  reply_ok : string → bool;
  send_ok : string → bool;
  during_typing : list store_op;
  during_completion : list store_op
}.

(** What [generate_response] returns: the content as the API gave it, or
    the error text. *)
Definition generate_response (env : environment) (history : deque)
    : option string :=
  match completion env (request_messages history) with
  | Completed content => content
  | Failed e => Some (error_text e)
  end.

(** ** Bot events *)

(** [message.reference.resolved]: [None], a [DeletedReferencedMessage],
    which has no [author], or a message, of which [on_message] reads whether
    the author is the bot user. *)
Inductive resolved :=
| Unresolved
| DeletedMessage
| ResolvedMessage (author_is_bot_user : bool).

(** What [on_message] reads from the inbound message; [reference] is [None]
    for a message that is not a reply. *)
Record message := Message {
  author_bot : bool;
  mentions_bot : bool;
  channel_is_dm : bool;
  reference : option resolved;
  channel_id : Z;
  msg_content : string
}.

(** Effects visible outside the process. *)
Inductive event :=
| ApiCall (messages : list entry)
| Reply (chunk : string)
| Send (chunk : string)
| ProcessCommands.

(** How a handler ends: it returns, or an exception leaves it. *)
Inductive ending := Returned | Raised.

(** The value of [is_reply] as a truth value, or [None] when reading
    [resolved.author] raises [AttributeError]. *)
Definition is_reply (m : message) : option bool :=
  match reference m with
  | None | Some Unresolved => Some false
  | Some DeletedMessage => None
  | Some (ResolvedMessage b) => Some b
  end.

(** [is_mentioned or is_dm or is_reply], where [is_reply] has a value. *)
Definition addressed (m : message) : bool :=
  mentions_bot m || channel_is_dm m || default false (is_reply m).

Definition mention_token (env : environment) : string :=
  "<@" +:+ pretty (bot_user_id env) +:+ ">".

Definition user_input (env : environment) (m : message) : string :=
  str_strip (str_replace (msg_content m) (mention_token env) "").

(** Steps 1 to 4 of [on_message] when [typing()] is entered: the store
    right after the assistant turn is added, the generated text, and the
    request that was sent.  The other tasks run between the user turn and
    the read of the history, and between that read and the assistant turn. *)
Definition respond (env : environment) (st : store) (cid : Z) (input : string)
    : store * option string * list entry :=
  let st1 := add_to_history st cid "user" (Some input) in
  let st1' := run_ops st1 (during_typing env) in
  let '(history, st2) := get_history st1' cid in
  let ai_text := generate_response env history in
  let st2' := run_ops st2 (during_completion env) in
  let st3 := add_to_history st2' cid "assistant" ai_text in
  (st3, ai_text, request_messages history).

(** Step 5: one reply per chunk, with a plain send when the reply fails; an
    exception of that send is not caught. *)
Fixpoint dispatch (env : environment) (chunks : list string)
    : list event * ending :=
  match chunks with
  | [] => ([], Returned)
  | chunk :: rest =>
      if reply_ok env chunk then
        let '(sent, e) := dispatch env rest in (Reply chunk :: sent, e)
      else if send_ok env chunk then
        let '(sent, e) := dispatch env rest in (Send chunk :: sent, e)
      else ([], Raised)
  end.

(** The handler: the store as its last own write left it, the effects in
    order, and how it ended; [None] when the loop of [split_message] runs out
    of fuel.  It raises where [resolved.author] does not exist, where
    [typing()] cannot be entered, where [len] is taken of a [None] text and
    where neither the reply nor the send of a chunk goes through. *)
Definition on_message (fuel : nat) (env : environment) (st : store)
    (m : message) : option (store * list event * ending) :=
  if author_bot m then Some (st, [], Returned)
  else
    match is_reply m with
    | None => Some (st, [], Raised)
    | Some _ =>
        if addressed m then
          let input := user_input env m in
          if decide (input = "") then Some (st, [], Returned)
          else if typing_ok env then
            let '(st', ai_text, request) :=
              respond env st (channel_id m) input in
            match ai_text with
            | None => Some (st', [ApiCall request], Raised)
            | Some text =>
                match split_message fuel text default_limit with
                | None => None
                | Some chunks =>
                    match dispatch env chunks with
                    | (sent, Returned) =>
                        Some (st', ApiCall request :: sent ++ [ProcessCommands],
                              Returned)
                    | (sent, Raised) =>
                        Some (st', ApiCall request :: sent, Raised)
                    end
                end
            end
          else
            Some (add_to_history st (channel_id m) "user" (Some input), [],
                  Raised)
        else Some (st, [ProcessCommands], Returned)
    end.

(** ** Slash commands *)

(** [/reset] as far as the store is concerned. *)
Definition reset (st : store) (interaction_channel_id : Z) : store :=
  clear_history st interaction_channel_id.

(** ** Vocabulary of the statements *)

(** ["".join(chunks)] *)
Definition join (chunks : list string) : string := String.concat "" chunks.

(** [n] copies of the letter a. *)
Definition letters (n : nat) : string :=
  string_of_list_ascii (replicate n "a"%char).

Definition newline_at (s : string) (i : nat) : Prop :=
  String.get i s = Some newline.

(** [i] is the last index below [p] that holds a newline. *)
Definition last_newline_before (s : string) (p i : nat) : Prop :=
  (i < p)%nat ∧ newline_at s i ∧ ∀ j, (i < j < p)%nat → ¬ newline_at s j.

(** A run of appends, each to its own channel. *)
Definition appends (st : store) (ops : list (Z * entry)) : store :=
  foldl (λ acc op, add_to_history acc op.1 (role op.2) (content op.2)) st ops.

(** The entries sent to channel [cid] by a run of appends, oldest first. *)
Definition entries_for (cid : Z) (ops : list (Z * entry)) : list entry :=
  omap (λ op, if decide (op.1 = cid) then Some op.2 else None) ops.

(** The last [n] elements of a list. *)
Definition last_n {A} (n : nat) (l : list A) : list A :=
  drop (length l - n) l.

(** What [get_history] hands back for a channel. *)
Definition history_of (st : store) (cid : Z) : list entry :=
  items (get_history st cid).1.

Definition stored_role (e : entry) : Prop :=
  role e = "user" ∨ role e = "assistant".

Definition roles_ok (st : store) : Prop :=
  ∀ cid d, st !! cid = Some d → Forall stored_role (items d).

(** Stores the process can be in: the empty dictionary at start-up, then
    any run of [/reset] commands, of single steps of other handlers and of
    messages, a message being seen either when its handler has ended or
    while its reply is being cut. *)
Inductive reachable : store → Prop :=
| reach_start : reachable initial_store
| reach_reset st cid : reachable st → reachable (reset st cid)
| reach_step st op : reachable st → reachable (run_op st op)
| reach_message st fuel env m st' tr e :
    reachable st → on_message fuel env st m = Some (st', tr, e) → reachable st'
| reach_respond st env m :
    reachable st → author_bot m = false → is_reply m ≠ None →
    addressed m = true → user_input env m ≠ "" → typing_ok env = true →
    reachable (respond env st (channel_id m) (user_input env m)).1.1.

(** The sixteen user messages of the eviction scenario, all to one channel. *)
Definition sixteen_texts : list string :=
  ["m1"; "m2"; "m3"; "m4"; "m5"; "m6"; "m7"; "m8";
   "m9"; "m10"; "m11"; "m12"; "m13"; "m14"; "m15"; "m16"].

Definition user_appends (cid : Z) (texts : list string) : list (Z * entry) :=
  (λ t, (cid, {| role := "user"; content := Some t |})) <$> texts.

(** Stores in which every history has the capacity it was built with. *)
Definition bounded (st : store) : Prop :=
  ∀ cid d, st !! cid = Some d → maxlen d = capacity.

(** Sample surroundings and messages for the concrete cases. *)
Definition answering_env : environment :=
  {| bot_user_id := 42;
     completion := λ _, Completed (Some "ok");
     typing_ok := true;
     reply_ok := λ _, true;
     send_ok := λ _, true;
     during_typing := [];
     during_completion := [] |}.

(** The completion call raises, and the description of the failure is a
    newline followed by 1900 letters. *)
Definition failing_env : environment :=
  {| bot_user_id := 42;
     completion := λ _, Failed (String newline (letters 1900));
     typing_ok := true;
     reply_ok := λ _, true;
     send_ok := λ _, true;
     during_typing := [];
     during_completion := [] |}.

Definition direct_message (text : string) : message :=
  {| author_bot := false; mentions_bot := false; channel_is_dm := true;
     reference := None; channel_id := 7; msg_content := text |}.

Definition channel_message (text : string) : message :=
  {| author_bot := false; mentions_bot := false; channel_is_dm := false;
     reference := None; channel_id := 7; msg_content := text |}.

Definition bot_message (text : string) : message :=
  {| author_bot := true; mentions_bot := true; channel_is_dm := false;
     reference := None; channel_id := 7; msg_content := text |}.

Definition mention_only : message :=
  {| author_bot := false; mentions_bot := true; channel_is_dm := false;
     reference := None; channel_id := 7; msg_content := " <@42> " |}.

(** A direct message that replies to a message deleted since. *)
Definition deleted_reply (text : string) : message :=
  {| author_bot := false; mentions_bot := false; channel_is_dm := true;
     reference := Some DeletedMessage; channel_id := 7; msg_content := text |}.

(** Surroundings in which [typing()] cannot be entered. *)
Definition stalled_env : environment :=
  {| bot_user_id := 42;
     completion := λ _, Completed (Some "ok");
     typing_ok := false;
     reply_ok := λ _, true;
     send_ok := λ _, true;
     during_typing := [];
     during_completion := [] |}.

(** Surroundings in which the completion comes back without content. *)
Definition silent_env : environment :=
  {| bot_user_id := 42;
     completion := λ _, Completed None;
     typing_ok := true;
     reply_ok := λ _, true;
     send_ok := λ _, true;
     during_typing := [];
     during_completion := [] |}.

(** Surroundings in which another handler stores a user turn in channel 7
    while this one waits to enter [typing()], and [/reset] clears the channel
    while it waits for the completion. *)
Definition busy_env : environment :=
  {| bot_user_id := 42;
     completion := λ _, Completed (Some "ok");
     typing_ok := true;
     reply_ok := λ _, true;
     send_ok := λ _, true;
     during_typing := [UserTurn 7 (Some "other")];
     during_completion := [Clear 7] |}.

(** Stores as the program builds them: every history has the capacity 15
    and no more entries than that. *)
Definition well_formed (st : store) : Prop :=
  ∀ cid d, st !! cid = Some d →
    maxlen d = capacity ∧ (length (items d) ≤ capacity)%nat.

(** Every newline with more than [limit] characters from it to the end of
    the text has another newline less than [limit] characters after it. *)
Definition newline_followed (text : string) (limit : Z) : Prop :=
  ∀ i, newline_at text i →
    Z.of_nat (String.length text) - Z.of_nat i > limit →
    ∃ j, (i < j)%nat ∧ Z.of_nat j < Z.of_nat i + limit ∧ newline_at text j.

(** The text an event puts on the channel, if any. *)
Definition event_chunk (ev : event) : option string :=
  match ev with
  | Reply chunk | Send chunk => Some chunk
  | ApiCall _ | ProcessCommands => None
  end.

(** All characters of a string are white space. *)
Definition all_space (s : string) : Prop :=
  Forall (λ c, py_isspace c = true) (list_ascii_of_string s).

(** [old] occurs nowhere in [s]. *)
Definition absent (old s : string) : Prop :=
  ∀ i, String.prefix old (str_drop i s) = false.

(** * Properties *)

(** ** Strings and slices *)

Section strings.
Implicit Types (s t : string) (n i : nat) (k : Z).

Lemma append_nil t : "" +:+ t = t.
Proof. reflexivity. Qed.

Lemma append_cons c s t : String c s +:+ t = String c (s +:+ t).
Proof. reflexivity. Qed.

Lemma append_empty_r s : s +:+ "" = s.
Proof.
  induction s as [|c s IH]; [done|]. by rewrite append_cons, IH.
Qed.

Lemma append_assoc s t u : (s +:+ t) +:+ u = s +:+ t +:+ u.
Proof.
  induction s as [|c s IH]; [done|]. by rewrite !append_cons, IH.
Qed.

Lemma length_append s t :
  String.length (s +:+ t) = (String.length s + String.length t)%nat.
Proof.
  induction s as [|c s IH]; [done|]. rewrite append_cons. simpl. by rewrite IH.
Qed.

Lemma str_take_drop n s : str_take n s +:+ str_drop n s = s.
Proof.
  revert s; induction n as [|n IH]; intros [|c s]; simpl; try done.
  by rewrite append_cons, IH.
Qed.

Lemma length_str_take n s :
  String.length (str_take n s) = (n `min` String.length s)%nat.
Proof.
  revert s; induction n as [|n IH]; intros [|c s]; simpl; try done.
  by rewrite IH.
Qed.

Lemma length_str_drop n s :
  String.length (str_drop n s) = (String.length s - n)%nat.
Proof.
  revert s; induction n as [|n IH]; intros [|c s]; simpl; try done.
Qed.

Lemma get_str_drop n i s : String.get i (str_drop n s) = String.get (n + i) s.
Proof.
  revert s; induction n as [|n IH]; intros [|c s]; simpl; done.
Qed.

Lemma slice_bound_le n k : (slice_bound n k ≤ n)%nat.
Proof. unfold slice_bound. case_match; lia. Qed.

Lemma slice_bound_nonneg n k :
  0 ≤ k → slice_bound n k = (Z.to_nat k `min` n)%nat.
Proof. intros Hk. unfold slice_bound. case_match; lia. Qed.

Lemma slice_bound_inside n k :
  0 ≤ k < Z.of_nat n → slice_bound n k = Z.to_nat k.
Proof. intros Hk. rewrite slice_bound_nonneg; lia. Qed.

Lemma slice_to_from s k : slice_to s k +:+ slice_from s k = s.
Proof. apply str_take_drop. Qed.

Lemma length_slice_to s k :
  0 ≤ k → Z.of_nat (String.length (slice_to s k)) ≤ k.
Proof.
  intros Hk. unfold slice_to.
  rewrite length_str_take, slice_bound_nonneg by done. lia.
Qed.

Lemma slice_to_nat s i :
  (i ≤ String.length s)%nat → slice_to s (Z.of_nat i) = str_take i s.
Proof.
  intros Hi. unfold slice_to. rewrite slice_bound_nonneg by lia.
  f_equal. lia.
Qed.

Lemma slice_from_nat s i :
  (i ≤ String.length s)%nat → slice_from s (Z.of_nat i) = str_drop i s.
Proof.
  intros Hi. unfold slice_from. rewrite slice_bound_nonneg by lia.
  f_equal. lia.
Qed.

Lemma rfind_between_Some c s lo hi i :
  rfind_between c s lo hi = Some i →
  (lo ≤ i < hi)%nat ∧ String.get i s = Some c
  ∧ ∀ j, (i < j < hi)%nat → String.get j s ≠ Some c.
Proof.
  induction hi as [|h IH]; simpl; [done|].
  destruct (Nat.ltb_spec h lo); [done|].
  case_decide as Hget.
  - intros [= <-]. split_and!; [lia | lia | done | intros; lia].
  - intros Hr. destruct (IH Hr) as ([? ?] & ? & Hlast).
    split_and!; [lia | lia | done |].
    intros j Hj. destruct (decide (j = h)) as [->|]; [done|].
    apply Hlast. lia.
Qed.

Lemma rfind_between_None c s lo hi :
  rfind_between c s lo hi = None →
  ∀ j, (lo ≤ j < hi)%nat → String.get j s ≠ Some c.
Proof.
  induction hi as [|h IH]; simpl; [intros; lia|].
  destruct (Nat.ltb_spec h lo); [intros; lia|].
  case_decide as Hget; [done|].
  intros Hr j Hj. destruct (decide (j = h)) as [->|]; [done|].
  apply IH; [done | lia].
Qed.

Lemma slice_bound_0 n : slice_bound n 0 = 0%nat.
Proof. unfold slice_bound. simpl. lia. Qed.

Lemma str_rfind_last s p i :
  last_newline_before s p i →
  rfind_between newline s 0 p = Some i.
Proof.
  intros (Hip & Hnl & Hlast).
  destruct (rfind_between newline s 0 p) as [i'|] eqn:Hr.
  - apply rfind_between_Some in Hr as ([_ ?] & Hi' & Hlast').
    destruct (Nat.lt_trichotomy i i') as [?|[->|?]]; [|done|].
    + exfalso. by apply (Hlast i').
    + exfalso. apply (Hlast' i); [lia | done].
  - exfalso. by apply (rfind_between_None _ _ _ _ Hr i); [lia|].
Qed.

Lemma str_rfind_range s c k :
  str_rfind s c 0 k = -1
  ∨ 0 ≤ str_rfind s c 0 k
    < Z.of_nat (slice_bound (String.length s) k).
Proof.
  unfold str_rfind.
  destruct rfind_between as [i|] eqn:Hr; [right | by left].
  apply rfind_between_Some in Hr as ([_ ?] & _). lia.
Qed.
End strings.

(** ** The chunker *)

Section chunker.
Implicit Types (text : string) (limit : Z) (chunks acc : list string).

Lemma join_cons text chunks : join (text :: chunks) = text +:+ join chunks.
Proof.
  unfold join. destruct chunks as [|c chunks]; simpl; [|done].
  by rewrite append_empty_r.
Qed.

Lemma join_snoc chunks text : join (chunks ++ [text]) = join chunks +:+ text.
Proof.
  induction chunks as [|c chunks IH].
  - simpl. by rewrite join_cons, append_empty_r.
  - rewrite <- app_comm_cons, !join_cons, IH. by rewrite append_assoc.
Qed.

Lemma split_loop_exit fuel text limit acc :
  Z.of_nat (String.length text) ≤ limit →
  split_loop fuel text limit acc = Some (acc ++ [text]).
Proof.
  intros Hle. destruct fuel; simpl;
    (destruct (Z.gtb_spec (Z.of_nat (String.length text)) limit); [lia | done]).
Qed.

Lemma split_loop_iter fuel text limit acc :
  Z.of_nat (String.length text) > limit →
  split_loop (S fuel) text limit acc
  = split_loop fuel (slice_from text (split_index text limit)) limit
      (acc ++ [slice_to text (split_index text limit)]).
Proof.
  intros Hgt. simpl.
  destruct (Z.gtb_spec (Z.of_nat (String.length text)) limit); [done | lia].
Qed.

Lemma split_loop_out_of_fuel text limit acc :
  Z.of_nat (String.length text) > limit →
  split_loop 0 text limit acc = None.
Proof.
  intros Hgt. simpl.
  destruct (Z.gtb_spec (Z.of_nat (String.length text)) limit); [done | lia].
Qed.

(** The loop keeps what it has gathered and only splits [text]. *)
Lemma split_loop_join fuel text limit acc out :
  split_loop fuel text limit acc = Some out →
  join out = join acc +:+ text.
Proof.
  revert text acc. induction fuel as [|fuel IH]; intros text acc.
  - destruct (Z_le_gt_dec (Z.of_nat (String.length text)) limit).
    + rewrite split_loop_exit by done. intros [= <-]. apply join_snoc.
    + by rewrite split_loop_out_of_fuel.
  - destruct (Z_le_gt_dec (Z.of_nat (String.length text)) limit).
    + rewrite split_loop_exit by done. intros [= <-]. apply join_snoc.
    + rewrite split_loop_iter by done. intros Hout.
      rewrite (IH _ _ Hout), join_snoc, append_assoc.
      by rewrite slice_to_from.
Qed.

(** More fuel does not change a result. *)
Lemma split_loop_more_fuel fuel fuel' text limit acc out :
  split_loop fuel text limit acc = Some out → (fuel ≤ fuel')%nat →
  split_loop fuel' text limit acc = Some out.
Proof.
  revert fuel' text acc. induction fuel as [|fuel IH]; intros fuel' text acc.
  - destruct (Z_le_gt_dec (Z.of_nat (String.length text)) limit).
    + by rewrite !split_loop_exit.
    + by rewrite split_loop_out_of_fuel.
  - destruct (Z_le_gt_dec (Z.of_nat (String.length text)) limit).
    + by rewrite !split_loop_exit.
    + intros Hout Hle. destruct fuel' as [|fuel']; [lia|].
      rewrite split_loop_iter in Hout |- * by done.
      apply (IH _ _ _ Hout). lia.
Qed.

(** A negative limit is below every length: the loop never exits. *)
Lemma split_loop_negative fuel text limit acc :
  limit < 0 → split_loop fuel text limit acc = None.
Proof.
  intros Hneg. revert text acc.
  induction fuel as [|fuel IH]; intros text acc.
  - apply split_loop_out_of_fuel. lia.
  - rewrite split_loop_iter by lia. apply IH.
Qed.

(** A text that one pass leaves as it is keeps the loop going for ever. *)
Lemma split_loop_stuck fuel text limit acc :
  Z.of_nat (String.length text) > limit →
  slice_from text (split_index text limit) = text →
  split_loop fuel text limit acc = None.
Proof.
  intros Hgt Hfix. revert acc. induction fuel as [|fuel IH]; intros acc.
  - by apply split_loop_out_of_fuel.
  - rewrite split_loop_iter, Hfix by done. apply IH.
Qed.

Lemma split_index_range text limit :
  0 ≤ limit → 0 ≤ split_index text limit ≤ limit.
Proof.
  intros Hl. unfold split_index.
  destruct (str_rfind_range text newline limit) as [-> | Hr]; [simpl; lia|].
  rewrite slice_bound_nonneg in Hr by done.
  destruct (Z.eqb_spec (str_rfind text newline 0 limit) (-1)); lia.
Qed.

Lemma split_loop_segments fuel text limit acc out :
  split_loop fuel text limit acc = Some out →
  ∃ segs final, out = acc ++ segs ++ [final]
    ∧ Forall (λ c, Z.of_nat (String.length c) ≤ limit) segs.
Proof.
  destruct (Z_lt_le_dec limit 0) as [Hneg | Hpos].
  { by rewrite split_loop_negative. }
  revert text acc. induction fuel as [|fuel IH]; intros text acc.
  - destruct (Z_le_gt_dec (Z.of_nat (String.length text)) limit).
    + rewrite split_loop_exit by done. intros [= <-]. by exists [], text.
    + by rewrite split_loop_out_of_fuel.
  - destruct (Z_le_gt_dec (Z.of_nat (String.length text)) limit).
    + rewrite split_loop_exit by done. intros [= <-]. by exists [], text.
    + rewrite split_loop_iter by done. intros Hout.
      destruct (IH _ _ Hout) as (segs & final & -> & Hsegs).
      exists (slice_to text (split_index text limit) :: segs), final.
      split; [by rewrite <- app_assoc|].
      constructor; [|done].
      pose proof (split_index_range text limit Hpos).
      etrans; [apply length_slice_to|]; lia.
Qed.

Lemma split_index_newline text limit i :
  last_newline_before text (slice_bound (String.length text) limit) i →
  split_index text limit = Z.of_nat i.
Proof.
  intros Hlast. unfold split_index, str_rfind.
  rewrite slice_bound_0, (str_rfind_last _ _ _ Hlast).
  destruct (Z.eqb_spec (Z.of_nat i) (-1)); [lia | done].
Qed.

Lemma split_index_hard text limit :
  (∀ j, (j < slice_bound (String.length text) limit)%nat → ¬ newline_at text j) →
  split_index text limit = limit.
Proof.
  intros Hnone. unfold split_index, str_rfind. rewrite slice_bound_0.
  destruct rfind_between as [i|] eqn:Hr; [|done].
  apply rfind_between_Some in Hr as ([_ ?] & Hget & _).
  by destruct (Hnone i).
Qed.
End chunker.

Lemma split_message_empty fuel limit :
  0 ≤ limit → split_message fuel "" limit = Some [""].
Proof. intros Hl. unfold split_message. by rewrite split_loop_exit. Qed.

(** Where no newline is met every pass removes [limit] characters, so the
    length of the text is enough fuel. *)
Lemma split_loop_total_without_newline fuel text limit acc :
  0 < limit → (∀ j, ¬ newline_at text j) →
  (String.length text ≤ fuel)%nat →
  ∃ chunks, split_loop fuel text limit acc = Some chunks.
Proof.
  intros Hl. revert text acc.
  induction fuel as [|fuel IH]; intros text acc Hnone Hlen.
  - exists (acc ++ [text]). apply split_loop_exit. lia.
  - destruct (Z_le_gt_dec (Z.of_nat (String.length text)) limit).
    + exists (acc ++ [text]). by apply split_loop_exit.
    + rewrite split_loop_iter, split_index_hard by eauto.
      apply IH.
      * intros j. unfold newline_at, slice_from.
        rewrite get_str_drop. apply Hnone.
      * unfold slice_from.
        rewrite length_str_drop, slice_bound_inside; lia.
Qed.

Lemma split_message_total_without_newline text limit :
  0 < limit → (∀ j, ¬ newline_at text j) →
  ∃ chunks, split_message (String.length text) text limit = Some chunks.
Proof. intros. by apply split_loop_total_without_newline. Qed.

(** The loop makes no progress on a text longer than the limit whose last
    newline before the limit is its first character: the cut is at index 0. *)
Lemma split_loop_leading_newline fuel text limit acc :
  Z.of_nat (String.length text) > limit →
  last_newline_before text (slice_bound (String.length text) limit) 0 →
  split_loop fuel text limit acc = None.
Proof.
  intros Hgt Hlast. apply split_loop_stuck; [done|].
  rewrite (split_index_newline _ _ _ Hlast). apply (slice_from_nat text 0). lia.
Qed.

Example split_message_small_hang fuel :
  split_message fuel (String newline "ab") 2 = None.
Proof.
  apply split_loop_leading_newline; [simpl; lia|].
  split_and!; [vm_compute; lia | reflexivity |].
  intros j Hj. assert (j = 1%nat) as -> by (vm_compute in Hj; lia).
  discriminate.
Qed.

(** C2: whenever [split_message] returns, joining its chunks in order gives
    back the text it was called on, for every text and every limit. *)
Theorem split_message_join fuel text limit chunks :
  split_message fuel text limit = Some chunks → join chunks = text.
Proof.
  intros Hout. apply split_loop_join in Hout. by rewrite Hout.
Qed.

Lemma split_message_join_witness :
  split_message 2 ("ab" +:+ String newline "cd" +:+ String newline "ef") 4
  = Some ["ab"; String newline "cd"; String newline "ef"]
  ∧ join ["ab"; String newline "cd"; String newline "ef"]
    = "ab" +:+ String newline "cd" +:+ String newline "ef".
Proof.
  split; [reflexivity|].
  apply (split_message_join 2%nat _ 4). reflexivity.
Defined.

(** C3, at the input where it fails: a text made of a newline followed by
    1900 letters is longer than the default limit, its only newline before
    the limit is at index 0, so every pass cuts an empty chunk off and leaves
    the text as it was: no amount of fuel lets [split_message] return. *)
Theorem split_message_hangs fuel :
  split_message fuel (String newline (letters 1900)) default_limit = None.
Proof.
  unfold split_message. apply split_loop_stuck.
  - vm_compute. reflexivity.
  - vm_compute. reflexivity.
Qed.

(** C4: every chunk but the last is at most [limit] long; a pass over a text
    longer than [limit] cuts at the last newline before the position [limit]
    when there is one, the newline opening what is left, and cuts at [limit]
    otherwise; 4000 letters at limit 1900 give chunks of 1900, 1900 and 200
    characters. *)
Theorem split_message_cuts :
  (∀ fuel text limit chunks k chunk,
      split_message fuel text limit = Some chunks →
      chunks !! k = Some chunk → (S k < length chunks)%nat →
      Z.of_nat (String.length chunk) ≤ limit)
  ∧ (∀ fuel text limit acc i,
      Z.of_nat (String.length text) > limit →
      last_newline_before text (slice_bound (String.length text) limit) i →
      split_loop (S fuel) text limit acc
      = split_loop fuel (str_drop i text) limit (acc ++ [str_take i text])
      ∧ String.get 0 (str_drop i text) = Some newline)
  ∧ (∀ fuel text limit acc,
      Z.of_nat (String.length text) > limit →
      (∀ j, (j < slice_bound (String.length text) limit)%nat →
            ¬ newline_at text j) →
      split_loop (S fuel) text limit acc
      = split_loop fuel (slice_from text limit) limit
          (acc ++ [slice_to text limit]))
  ∧ (∀ text limit,
      0 ≤ limit < Z.of_nat (String.length text) →
      slice_bound (String.length text) limit = Z.to_nat limit
      ∧ slice_to text limit = str_take (Z.to_nat limit) text
      ∧ slice_from text limit = str_drop (Z.to_nat limit) text
      ∧ String.length (slice_to text limit) = Z.to_nat limit)
  ∧ (∀ fuel, (2 ≤ fuel)%nat →
      ∃ chunks, split_message fuel (letters 4000) 1900 = Some chunks
        ∧ String.length <$> chunks = [1900; 1900; 200]%nat).
Proof.
  split_and!.
  - intros fuel text limit chunks k chunk Hout Hk Hlast.
    apply split_loop_segments in Hout as (segs & final & -> & Hsegs).
    simpl in *. rewrite length_app in Hlast. simpl in Hlast.
    rewrite lookup_app_l in Hk by lia.
    by apply (Forall_lookup_1 _ _ _ _ Hsegs Hk).
  - intros fuel text limit acc i Hgt Hlast.
    pose proof (slice_bound_le (String.length text) limit).
    pose proof Hlast as (Hi & Hnl & _).
    rewrite split_loop_iter, (split_index_newline _ _ _ Hlast) by done.
    rewrite slice_to_nat, slice_from_nat by lia. split; [done|].
    rewrite get_str_drop, Nat.add_0_r. apply Hnl.
  - intros fuel text limit acc Hgt Hnone.
    by rewrite split_loop_iter, split_index_hard.
  - intros text limit Hl.
    unfold slice_to, slice_from. rewrite length_str_take.
    rewrite slice_bound_inside by done. split_and!; [done..|lia].
  - intros fuel Hfuel. eexists. split.
    + apply (split_loop_more_fuel 2); [|done]. vm_compute. reflexivity.
    + vm_compute. reflexivity.
Qed.

Lemma split_message_cuts_witness :
  Z.of_nat (String.length "ab") ≤ 4
  ∧ split_loop 1 ("ab" +:+ String newline "cd") 4 []
    = split_loop 0 (String newline "cd") 4 ["ab"]
  ∧ split_loop 1 "abcdefg" 3 [] = split_loop 0 "defg" 3 ["abc"]
  ∧ String.length (slice_to "abcdefg" 3) = 3%nat.
Proof.
  destruct split_message_cuts as (Hbound & Hnewline & Hhard & Hinside & _).
  split_and!.
  - apply (Hbound 2%nat ("ab" +:+ String newline "cd" +:+ String newline "ef") 4
             ["ab"; String newline "cd"; String newline "ef"] 0%nat);
      [reflexivity | reflexivity | simpl; lia].
  - refine (proj1 (Hnewline 0%nat ("ab" +:+ String newline "cd") 4 [] 2%nat _ _)).
    + simpl. lia.
    + split_and!; [vm_compute; lia | reflexivity |].
      intros j Hj. assert (j = 3%nat) as -> by (vm_compute in Hj; lia).
      discriminate.
  - apply (Hhard 0%nat "abcdefg" 3 []); [simpl; lia|].
    intros j Hj.
    assert (j = 0 ∨ j = 1 ∨ j = 2)%nat as [->|[->| ->]]
      by (vm_compute in Hj; lia); discriminate.
  - refine (proj2 (proj2 (proj2 (Hinside "abcdefg" 3 _)))). simpl. lia.
Defined.

(** ** The history cache *)

Section history.
Implicit Types (st : store) (cid : Z) (d : deque) (e : entry).

Lemma add_to_history_lookup st cid r c :
  add_to_history st cid r c !! cid
  = Some (deque_append (get_history st cid).1 {| role := r; content := c |}).
Proof.
  unfold add_to_history. destruct (get_history st cid) as [h st1].
  apply lookup_insert_eq.
Qed.

Lemma add_to_history_lookup_ne st cid cid' r c :
  cid ≠ cid' → add_to_history st cid r c !! cid' = st !! cid'.
Proof.
  intros Hne. unfold add_to_history, get_history.
  destruct (st !! cid); by rewrite !lookup_insert_ne.
Qed.

Lemma history_of_lookup st cid :
  history_of st cid = from_option items [] (st !! cid).
Proof. unfold history_of, get_history. by destruct (st !! cid). Qed.

Lemma length_last_n {A} n (l : list A) :
  length (last_n n l) = (length l `min` n)%nat.
Proof. unfold last_n. rewrite length_drop. lia. Qed.

(** Appending to the last [n] and trimming on the left gives the last [n]
    of the longer list. *)
Lemma last_n_snoc {A} n (l : list A) x :
  (if (n <? length (last_n n l ++ [x]))%nat
   then drop 1 (last_n n l ++ [x]) else last_n n l ++ [x])
  = last_n n (l ++ [x]).
Proof.
  rewrite length_app, length_last_n. simpl. unfold last_n.
  rewrite length_app. simpl.
  destruct (Nat.ltb_spec n (length l `min` n + 1)).
  - rewrite <- drop_app_le by lia. rewrite drop_drop. f_equal. lia.
  - replace (length l - n)%nat with 0%nat by lia.
    replace (length l + 1 - n)%nat with 0%nat by lia. done.
Qed.

Lemma appends_snoc st ops op :
  appends st (ops ++ [op])
  = add_to_history (appends st ops) op.1 (role op.2) (content op.2).
Proof. unfold appends. by rewrite foldl_snoc. Qed.

Lemma entries_for_snoc cid ops op :
  entries_for cid (ops ++ [op])
  = entries_for cid ops ++ (if decide (op.1 = cid) then [op.2] else []).
Proof.
  unfold entries_for. rewrite omap_app. simpl. by case_decide.
Qed.

(** What the store holds for a channel after a run of appends from the
    empty store. *)
Lemma appends_lookup ops cid :
  match appends initial_store ops !! cid with
  | Some d =>
      maxlen d = capacity ∧ items d = last_n capacity (entries_for cid ops)
  | None => entries_for cid ops = []
  end.
Proof.
  induction ops as [|[cid' [r c]] ops IH] using rev_ind; [done|].
  rewrite appends_snoc, entries_for_snoc. simpl.
  case_decide as Hcid.
  - subst cid'. rewrite add_to_history_lookup. unfold get_history.
    destruct (appends initial_store ops !! cid) as [d|].
    + destruct IH as [Hmax Hitems]. simpl. split; [done|].
      rewrite Hmax, Hitems. apply last_n_snoc.
    + rewrite IH. simpl. done.
  - rewrite add_to_history_lookup_ne, app_nil_r by done. apply IH.
Qed.

Lemma history_of_appends ops cid :
  history_of (appends initial_store ops) cid
  = last_n capacity (entries_for cid ops).
Proof.
  rewrite history_of_lookup. pose proof (appends_lookup ops cid) as H.
  destruct (appends initial_store ops !! cid); simpl.
  - by destruct H.
  - by rewrite H.
Qed.

Lemma history_of_add st cid r c :
  from_option (λ d, maxlen d = capacity) True (st !! cid) →
  history_of (add_to_history st cid r c) cid
  = let grown := history_of st cid ++ [{| role := r; content := c |}] in
    if (capacity <? length grown)%nat then drop 1 grown else grown.
Proof.
  intros Hmax.
  rewrite (history_of_lookup (add_to_history _ _ _ _)), add_to_history_lookup.
  rewrite history_of_lookup. unfold get_history.
  destruct (st !! cid) as [d|]; simpl in *; [by rewrite Hmax | done].
Qed.

Lemma appends_maxlen ops cid :
  from_option (λ d, maxlen d = capacity) True
    (appends initial_store ops !! cid).
Proof.
  pose proof (appends_lookup ops cid) as H.
  destruct (appends initial_store ops !! cid); simpl; [by destruct H | done].
Qed.

Lemma entries_for_user_appends cid texts :
  entries_for cid (user_appends cid texts)
  = (λ t, {| role := "user"; content := Some t |}) <$> texts.
Proof.
  unfold entries_for, user_appends.
  induction texts as [|t texts IH]; [done|].
  simpl. rewrite decide_True by done. simpl. by f_equal.
Qed.
End history.

(** C1: after any run of appends from the empty store a channel holds the
    last [min n 15] of the [n] entries appended to it, oldest first, so never
    more than 15; an append to a full history drops the one oldest entry and
    an append to a shorter one drops nothing; sixteen user messages m1 to m16
    leave m2 to m16. *)
Theorem history_keeps_last_15 :
  (∀ ops cid,
      history_of (appends initial_store ops) cid
      = last_n capacity (entries_for cid ops)
      ∧ length (history_of (appends initial_store ops) cid)
        = (length (entries_for cid ops) `min` 15)%nat
      ∧ (length (history_of (appends initial_store ops) cid) ≤ 15)%nat)
  ∧ (∀ ops cid r c oldest rest,
      history_of (appends initial_store ops) cid = oldest :: rest →
      length (oldest :: rest) = 15%nat →
      history_of (add_to_history (appends initial_store ops) cid r c) cid
      = rest ++ [{| role := r; content := c |}])
  ∧ (∀ ops cid r c,
      (length (history_of (appends initial_store ops) cid) < 15)%nat →
      history_of (add_to_history (appends initial_store ops) cid r c) cid
      = history_of (appends initial_store ops) cid
        ++ [{| role := r; content := c |}])
  ∧ (∀ cid,
      history_of (appends initial_store (user_appends cid sixteen_texts)) cid
      = (λ t, {| role := "user"; content := Some t |}) <$> drop 1 sixteen_texts).
Proof.
  split_and!.
  - intros ops cid. rewrite history_of_appends, length_last_n.
    unfold capacity. split_and!; [done | done | lia].
  - intros ops cid r c oldest rest Hfull Hlen.
    rewrite history_of_add by apply appends_maxlen.
    rewrite Hfull. simpl. rewrite length_app. simpl in *.
    destruct (Nat.ltb_spec capacity (S (length rest + 1))); [done|].
    unfold capacity in *. lia.
  - intros ops cid r c Hlen.
    rewrite history_of_add by apply appends_maxlen.
    simpl. rewrite length_app. simpl.
    destruct (Nat.ltb_spec capacity (length (history_of (appends initial_store ops) cid) + 1));
      [unfold capacity in *; lia | done].
  - intros cid. rewrite history_of_appends, entries_for_user_appends.
    reflexivity.
Qed.

Lemma history_keeps_last_15_witness :
  history_of
    (add_to_history (appends initial_store (user_appends 7 (drop 1 sixteen_texts)))
       7 "assistant" (Some "hello")) 7
  = ((λ t, {| role := "user"; content := Some t |}) <$> drop 2 sixteen_texts)
    ++ [{| role := "assistant"; content := Some "hello" |}]
  ∧ history_of (add_to_history (appends initial_store []) 7 "user" (Some "m1")) 7
    = [{| role := "user"; content := Some "m1" |}].
Proof.
  destruct history_keeps_last_15 as (_ & Hfull & Hshort & _).
  split.
  - apply (Hfull (user_appends 7 (drop 1 sixteen_texts)) 7 "assistant" (Some "hello")
             {| role := "user"; content := Some "m2" |}).
    + vm_compute. reflexivity.
    + reflexivity.
  - apply (Hshort [] 7 "user" (Some "m1")). vm_compute. lia.
Defined.

(** C8: [clear_history] leaves a store without the channel as it is, empties
    the channel's history when there is one, touches no other channel, and in
    both cases the next [get_history] hands back an empty history. *)
Theorem clear_history_empties st cid :
  history_of (clear_history st cid) cid = []
  ∧ (st !! cid = None → clear_history st cid = st)
  ∧ (∀ d, st !! cid = Some d →
       clear_history st cid !! cid = Some (deque_clear d)
       ∧ items (deque_clear d) = [] ∧ maxlen (deque_clear d) = maxlen d)
  ∧ (∀ cid', cid' ≠ cid → clear_history st cid !! cid' = st !! cid').
Proof.
  unfold clear_history. split_and!.
  - rewrite history_of_lookup.
    destruct (st !! cid) as [d|] eqn:Hd; simpl.
    + by rewrite lookup_insert_eq.
    + by rewrite Hd.
  - by intros ->.
  - intros d ->. by rewrite lookup_insert_eq.
  - intros cid' Hne. destruct (st !! cid); [|done].
    by rewrite lookup_insert_ne.
Qed.

Lemma clear_history_empties_witness :
  clear_history initial_store 7 = initial_store
  ∧ clear_history (add_to_history initial_store 7 "user" (Some "hi")) 7 !! 7
    = Some (deque_new capacity)
  ∧ clear_history (add_to_history initial_store 7 "user" (Some "hi")) 7 !! 8 = None.
Proof.
  split_and!.
  - apply (clear_history_empties initial_store 7). reflexivity.
  - refine (proj1 (proj1 (proj2 (proj2 (clear_history_empties
        (add_to_history initial_store 7 "user" (Some "hi")) 7)))
        (deque_append (deque_new capacity) {| role := "user"; content := Some "hi" |})
        _)).
    vm_compute. reflexivity.
  - refine (proj2 (proj2 (proj2 (clear_history_empties
        (add_to_history initial_store 7 "user" (Some "hi")) 7))) 8 _).
    lia.
Defined.

(** C9: [get_history] is a total function; on a channel without history it
    stores and hands back a new empty history bounded at 15, on any other it
    hands back the stored one and leaves the store alone; asked again with
    nothing in between, it hands back the same history and changes nothing. *)
Theorem get_history_twice st cid :
  (get_history (get_history st cid).2 cid).1 = (get_history st cid).1
  ∧ (get_history (get_history st cid).2 cid).2 = (get_history st cid).2
  ∧ (st !! cid = None →
       get_history st cid
       = (deque_new 15, <[cid := deque_new 15]> st)
       ∧ items (get_history st cid).1 = [])
  ∧ (∀ d, st !! cid = Some d → get_history st cid = (d, st)).
Proof.
  unfold get_history. split_and!.
  - destruct (st !! cid) as [d|] eqn:Hd; simpl.
    + by rewrite Hd.
    + by rewrite lookup_insert_eq.
  - destruct (st !! cid) as [d|] eqn:Hd; simpl.
    + by rewrite Hd.
    + by rewrite lookup_insert_eq.
  - by intros ->.
  - by intros d ->.
Qed.

Lemma get_history_twice_witness :
  get_history initial_store 7
  = (deque_new 15, <[7 := deque_new 15]> initial_store)
  ∧ get_history (<[7 := deque_new 15]> initial_store) 7
    = (deque_new 15, <[7 := deque_new 15]> initial_store).
Proof.
  split.
  - apply (get_history_twice initial_store 7). reflexivity.
  - apply (get_history_twice (<[7 := deque_new 15]> initial_store) 7).
    reflexivity.
Defined.

(** ** The response orchestrator *)

Section orchestrator.
Implicit Types (st : store) (env : environment) (m : message) (d : deque).
Implicit Types (op : store_op) (ops : list store_op).

Lemma generate_response_failed env d e :
  completion env (request_messages d) = Failed e →
  generate_response env d = Some (error_text e).
Proof. unfold generate_response. by intros ->. Qed.

Lemma generate_response_completed env d content :
  completion env (request_messages d) = Completed content →
  generate_response env d = content.
Proof. unfold generate_response. by intros ->. Qed.

Lemma get_history_present st cid d :
  st !! cid = Some d → get_history st cid = (d, st).
Proof. unfold get_history. by intros ->. Qed.

Lemma get_history_lookup_ne st cid cid' :
  cid ≠ cid' → (get_history st cid).2 !! cid' = st !! cid'.
Proof.
  intros Hne. unfold get_history. destruct (st !! cid); simpl; [done|].
  by rewrite lookup_insert_ne.
Qed.

(** The deque [get_history] hands back is the one it leaves in the store. *)
Lemma get_history_stored st cid :
  (get_history st cid).2 !! cid = Some (get_history st cid).1.
Proof.
  unfold get_history. destruct (st !! cid) eqn:Hd; simpl;
    [done | apply lookup_insert_eq].
Qed.

Lemma get_history_again st cid :
  (get_history (get_history st cid).2 cid).1 = (get_history st cid).1.
Proof. by rewrite (get_history_present _ _ _ (get_history_stored st cid)). Qed.

Lemma run_ops_snoc st ops op :
  run_ops st (ops ++ [op]) = run_op (run_ops st ops) op.
Proof. unfold run_ops. by rewrite foldl_snoc. Qed.

Lemma run_ops_app st ops ops' :
  run_ops st (ops ++ ops') = run_ops (run_ops st ops) ops'.
Proof. unfold run_ops. by rewrite foldl_app. Qed.

(** A step of another task changes a channel only through what the channel
    held before. *)
Lemma run_op_lookup_ne st op cid :
  op_channel op ≠ cid → run_op st op !! cid = st !! cid.
Proof.
  destruct op as [c t|c t|c|c]; simpl; intros Hne.
  - by apply add_to_history_lookup_ne.
  - by apply add_to_history_lookup_ne.
  - by apply get_history_lookup_ne.
  - unfold clear_history. destruct (st !! c); [|done].
    by rewrite lookup_insert_ne.
Qed.

Lemma run_ops_lookup_ne st ops cid :
  Forall (λ op, op_channel op ≠ cid) ops → run_ops st ops !! cid = st !! cid.
Proof.
  induction ops as [|op ops IH] using rev_ind; [done|].
  intros [Hops Hop]%Forall_app. rewrite Forall_singleton in Hop.
  rewrite run_ops_snoc, run_op_lookup_ne by apply Hop. by apply IH.
Qed.

(** [respond] spelled out: the request carries the history as it is when
    [typing()] has been entered, and the store ends with the assistant turn
    added to what the other tasks left. *)
Lemma respond_unfold env st cid input :
  let st1 :=
    run_ops (add_to_history st cid "user" (Some input)) (during_typing env) in
  let history := (get_history st1 cid).1 in
  respond env st cid input
  = (add_to_history (run_ops (get_history st1 cid).2 (during_completion env))
       cid "assistant" (generate_response env history),
     generate_response env history,
     request_messages history).
Proof. simpl. unfold respond. by destruct (get_history _ cid). Qed.

(** While no other task runs, [respond] is the two appends in a row. *)
Lemma respond_alone env st cid input :
  during_typing env = [] → during_completion env = [] →
  let history := deque_append (get_history st cid).1
                   {| role := "user"; content := Some input |} in
  respond env st cid input
  = (add_to_history (add_to_history st cid "user" (Some input))
       cid "assistant" (generate_response env history),
     generate_response env history,
     request_messages history).
Proof.
  intros Htyping Hcompletion. simpl. rewrite respond_unfold.
  rewrite Htyping, Hcompletion. simpl.
  by rewrite (get_history_present _ _ _ (add_to_history_lookup st cid _ _)).
Qed.

Lemma on_message_bot fuel env st m :
  author_bot m = true → on_message fuel env st m = Some (st, [], Returned).
Proof. unfold on_message. by intros ->. Qed.

Lemma on_message_deleted_reference fuel env st m :
  author_bot m = false → is_reply m = None →
  on_message fuel env st m = Some (st, [], Raised).
Proof. unfold on_message. by intros -> ->. Qed.

Lemma on_message_not_addressed fuel env st m :
  author_bot m = false → is_reply m ≠ None → addressed m = false →
  on_message fuel env st m = Some (st, [ProcessCommands], Returned).
Proof.
  unfold on_message. intros -> Hreply ->. by destruct (is_reply m).
Qed.

Lemma on_message_empty_input fuel env st m :
  author_bot m = false → is_reply m ≠ None → addressed m = true →
  user_input env m = "" →
  on_message fuel env st m = Some (st, [], Returned).
Proof.
  unfold on_message. intros -> Hreply -> ->. by destruct (is_reply m).
Qed.

Lemma on_message_typing_failed fuel env st m :
  author_bot m = false → is_reply m ≠ None → addressed m = true →
  user_input env m ≠ "" → typing_ok env = false →
  on_message fuel env st m
  = Some (add_to_history st (channel_id m) "user" (Some (user_input env m)),
          [], Raised).
Proof.
  unfold on_message. intros -> Hreply -> Hin ->.
  destruct (is_reply m); [|done]. by rewrite decide_False.
Qed.

Lemma on_message_eligible fuel env st m :
  author_bot m = false → is_reply m ≠ None → addressed m = true →
  user_input env m ≠ "" → typing_ok env = true →
  on_message fuel env st m
  = let '(st', ai_text, request) :=
      respond env st (channel_id m) (user_input env m) in
    match ai_text with
    | None => Some (st', [ApiCall request], Raised)
    | Some text =>
        match split_message fuel text default_limit with
        | None => None
        | Some chunks =>
            match dispatch env chunks with
            | (sent, Returned) =>
                Some (st', ApiCall request :: sent ++ [ProcessCommands],
                      Returned)
            | (sent, Raised) => Some (st', ApiCall request :: sent, Raised)
            end
        end
    end.
Proof.
  unfold on_message. intros -> Hreply -> Hin ->.
  destruct (is_reply m); [|done]. by rewrite decide_False.
Qed.

(** The five ways through the handler. *)
Lemma on_message_cases env m :
  author_bot m = true
  ∨ (author_bot m = false ∧ is_reply m = None)
  ∨ (author_bot m = false ∧ is_reply m ≠ None ∧ addressed m = false)
  ∨ (author_bot m = false ∧ is_reply m ≠ None ∧ addressed m = true
     ∧ user_input env m = "")
  ∨ (author_bot m = false ∧ is_reply m ≠ None ∧ addressed m = true
     ∧ user_input env m ≠ "").
Proof.
  destruct (author_bot m); [by left|]. right.
  destruct (is_reply m) eqn:Hreply; [|by left]. right.
  destruct (addressed m); [|by left]. right.
  destruct (decide (user_input env m = "")); [left | right]; done.
Qed.

(** [dispatch] only replies and sends, chunk by chunk and in order. *)
Lemma dispatch_events env chunks sent e :
  dispatch env chunks = (sent, e) →
  Forall (λ ev, ∃ chunk, chunk ∈ chunks ∧ (ev = Reply chunk ∨ ev = Send chunk))
    sent.
Proof.
  revert sent e. induction chunks as [|c chunks IH]; intros sent e; simpl.
  - by intros [= <- <-].
  - destruct (dispatch env chunks) as [sent' e'].
    assert (Forall (λ ev, ∃ chunk, chunk ∈ c :: chunks
              ∧ (ev = Reply chunk ∨ ev = Send chunk)) sent') as Hrest.
    { eapply Forall_impl; [by eapply IH|].
      intros ev (chunk & ? & ?). exists chunk. split; [by right | done]. }
    destruct (reply_ok env c); [|destruct (send_ok env c)].
    + intros [= <- <-]. constructor; [|done].
      exists c. split; [by left | by left].
    + intros [= <- <-]. constructor; [|done].
      exists c. split; [by left | by right].
    + by intros [= <- <-].
Qed.

(** When every reply goes through, the trace is the chunks in order. *)
Lemma dispatch_all_replies env chunks :
  (∀ chunk, reply_ok env chunk = true) →
  dispatch env chunks = (Reply <$> chunks, Returned).
Proof.
  intros Hok. induction chunks as [|c chunks IH]; [done|].
  simpl. by rewrite Hok, IH.
Qed.

Lemma deque_append_roles d x :
  Forall stored_role (items d) → stored_role x →
  Forall stored_role (items (deque_append d x)).
Proof.
  intros Hd Hx. unfold deque_append. simpl.
  assert (Forall stored_role (items d ++ [x])) by (apply Forall_app; auto).
  case_match; [by apply Forall_drop | done].
Qed.

Lemma add_to_history_roles st cid r c :
  roles_ok st → r = "user" ∨ r = "assistant" →
  roles_ok (add_to_history st cid r c).
Proof.
  intros Hst Hr cid' d'.
  destruct (decide (cid = cid')) as [<-|Hne].
  - rewrite add_to_history_lookup. intros [= <-].
    apply deque_append_roles; [|done].
    unfold get_history. destruct (st !! cid) eqn:Hd; simpl; [|done].
    by eapply Hst.
  - rewrite add_to_history_lookup_ne by done. apply Hst.
Qed.

Lemma clear_history_roles st cid : roles_ok st → roles_ok (clear_history st cid).
Proof.
  intros Hst cid' d'. unfold clear_history.
  destruct (st !! cid) as [d|] eqn:Hd; [|apply Hst].
  destruct (decide (cid = cid')) as [<-|Hne].
  - rewrite lookup_insert_eq. by intros [= <-].
  - rewrite lookup_insert_ne by done. apply Hst.
Qed.

Lemma get_history_roles st cid : roles_ok st → roles_ok (get_history st cid).2.
Proof.
  intros Hst cid' d'. unfold get_history.
  destruct (st !! cid) as [d|] eqn:Hd; simpl; [apply Hst|].
  destruct (decide (cid = cid')) as [<-|Hne].
  - rewrite lookup_insert_eq. by intros [= <-].
  - rewrite lookup_insert_ne by done. apply Hst.
Qed.

Lemma run_op_roles st op : roles_ok st → roles_ok (run_op st op).
Proof.
  intros Hst. destruct op as [c t|c t|c|c]; simpl.
  - apply add_to_history_roles; [done | by left].
  - apply add_to_history_roles; [done | by right].
  - by apply get_history_roles.
  - by apply clear_history_roles.
Qed.

Lemma run_ops_roles st ops : roles_ok st → roles_ok (run_ops st ops).
Proof.
  intros Hst. induction ops as [|op ops IH] using rev_ind; [done|].
  rewrite run_ops_snoc. by apply run_op_roles.
Qed.

Lemma respond_roles env st cid input :
  roles_ok st → roles_ok (respond env st cid input).1.1.
Proof.
  intros Hst. rewrite respond_unfold. simpl.
  apply add_to_history_roles; [|by right].
  apply run_ops_roles, get_history_roles, run_ops_roles.
  apply add_to_history_roles; [done | by left].
Qed.

(** The store a handler ends with is the one it started from, that store
    with the user turn, or the one [respond] made. *)
Lemma on_message_store fuel env st m st' tr e :
  on_message fuel env st m = Some (st', tr, e) →
  st' = st
  ∨ st' = add_to_history st (channel_id m) "user" (Some (user_input env m))
  ∨ st' = (respond env st (channel_id m) (user_input env m)).1.1.
Proof.
  destruct (on_message_cases env m)
    as [Hbot | [[Hbot Hdel] | [(Hbot & Hrep & Haddr)
        | [(Hbot & Hrep & Haddr & Hin) | (Hbot & Hrep & Haddr & Hin)]]]].
  - rewrite on_message_bot by done. intros [= <- _ _]. by left.
  - rewrite on_message_deleted_reference by done. intros [= <- _ _]. by left.
  - rewrite on_message_not_addressed by done. intros [= <- _ _]. by left.
  - rewrite on_message_empty_input by done. intros [= <- _ _]. by left.
  - destruct (typing_ok env) eqn:Htyping.
    2: { rewrite on_message_typing_failed by done. intros [= <- _ _].
         right. by left. }
    rewrite on_message_eligible by done.
    destruct (respond env st (channel_id m) (user_input env m))
      as [[st3 ai_text] request].
    destruct ai_text as [text|]; [|intros [= <- _ _]; right; by right].
    destruct (split_message fuel text default_limit) as [chunks|]; [|done].
    destruct (dispatch env chunks) as [sent []]; intros [= <- _ _];
      right; by right.
Qed.

Lemma add_to_history_bounded st cid r c :
  bounded st → bounded (add_to_history st cid r c).
Proof.
  intros Hst cid' d'.
  destruct (decide (cid = cid')) as [<-|Hne].
  - rewrite add_to_history_lookup. intros [= <-]. simpl.
    unfold get_history. destruct (st !! cid) eqn:Hd; simpl; [|done].
    by eapply Hst.
  - rewrite add_to_history_lookup_ne by done. apply Hst.
Qed.

Lemma clear_history_bounded st cid : bounded st → bounded (clear_history st cid).
Proof.
  intros Hst cid' d'. unfold clear_history.
  destruct (st !! cid) as [d|] eqn:Hd; [|apply Hst].
  destruct (decide (cid = cid')) as [<-|Hne].
  - rewrite lookup_insert_eq. intros [= <-]. simpl. by eapply Hst.
  - rewrite lookup_insert_ne by done. apply Hst.
Qed.

Lemma get_history_bounded st cid : bounded st → bounded (get_history st cid).2.
Proof.
  intros Hst cid' d'. unfold get_history.
  destruct (st !! cid) as [d|] eqn:Hd; simpl; [apply Hst|].
  destruct (decide (cid = cid')) as [<-|Hne].
  - rewrite lookup_insert_eq. by intros [= <-].
  - rewrite lookup_insert_ne by done. apply Hst.
Qed.

Lemma run_ops_bounded st ops : bounded st → bounded (run_ops st ops).
Proof.
  intros Hst. induction ops as [|op ops IH] using rev_ind; [done|].
  rewrite run_ops_snoc. destruct op as [c t|c t|c|c]; simpl.
  - by apply add_to_history_bounded.
  - by apply add_to_history_bounded.
  - by apply get_history_bounded.
  - by apply clear_history_bounded.
Qed.

Lemma bounded_lookup st cid :
  bounded st → from_option (λ d, maxlen d = capacity) True (st !! cid).
Proof.
  intros Hst. destruct (st !! cid) eqn:Hd; simpl; [by eapply Hst | done].
Qed.

(** On a bounded store the entry just added is the newest of its channel. *)
Lemma add_to_history_last st cid r c :
  bounded st →
  last (history_of (add_to_history st cid r c) cid)
  = Some {| role := r; content := c |}.
Proof.
  intros Hst. rewrite history_of_add by by apply bounded_lookup.
  simpl. case_match; [|apply last_snoc].
  destruct (history_of st cid) as [|x l]; [done|].
  simpl. rewrite drop_0. apply last_snoc.
Qed.

(** The store [respond] is about to add the assistant turn to. *)
Lemma respond_bounded_before env st cid input :
  bounded st →
  bounded
    (run_ops
       (get_history
          (run_ops (add_to_history st cid "user" (Some input))
             (during_typing env)) cid).2
       (during_completion env)).
Proof.
  intros Hst.
  by apply run_ops_bounded, get_history_bounded, run_ops_bounded,
    add_to_history_bounded.
Qed.

Lemma respond_last env st cid input :
  bounded st →
  last (history_of (respond env st cid input).1.1 cid)
  = Some {| role := "assistant"; content := (respond env st cid input).1.2 |}.
Proof.
  intros Hst. rewrite respond_unfold. simpl.
  by apply add_to_history_last, respond_bounded_before.
Qed.

Lemma reachable_roles st : reachable st → roles_ok st.
Proof.
  induction 1 as [|st cid _ IH|st op _ IH|st fuel env m st' tr e _ IH Hrun
                  |st env m _ IH].
  - intros cid d. unfold initial_store. by rewrite lookup_empty.
  - by apply clear_history_roles.
  - by apply run_op_roles.
  - apply on_message_store in Hrun as [-> | [-> | ->]]; [done | |].
    + apply add_to_history_roles; [done | by left].
    + by apply respond_roles.
  - by apply respond_roles.
Qed.
End orchestrator.

(** From the second pass on, the text of the failed call of [failing_env]
    starts with its only newline below the limit. *)
Lemma error_text_hangs fuel :
  split_message fuel (error_text (String newline (letters 1900))) default_limit
  = None.
Proof.
  unfold split_message. destruct fuel as [|fuel].
  - vm_compute. reflexivity.
  - rewrite split_loop_iter by (vm_compute; reflexivity).
    apply split_loop_stuck; vm_compute; reflexivity.
Qed.

(** A handler that got as far as [respond] ended with [respond]'s store and
    with a trace made of the request and of what [dispatch] sent. *)
Lemma on_message_eligible_inv fuel env st m st' tr e :
  author_bot m = false → is_reply m ≠ None → addressed m = true →
  user_input env m ≠ "" → typing_ok env = true →
  on_message fuel env st m = Some (st', tr, e) →
  st' = (respond env st (channel_id m) (user_input env m)).1.1
  ∧ ((respond env st (channel_id m) (user_input env m)).1.2 = None
     ∧ tr = [ApiCall (respond env st (channel_id m) (user_input env m)).2]
     ∧ e = Raised
     ∨ ∃ text chunks sent,
         (respond env st (channel_id m) (user_input env m)).1.2 = Some text
         ∧ split_message fuel text default_limit = Some chunks
         ∧ dispatch env chunks = (sent, e)
         ∧ tr = ApiCall (respond env st (channel_id m) (user_input env m)).2
                :: sent ++ match e with
                           | Returned => [ProcessCommands]
                           | Raised => []
                           end).
Proof.
  intros Hbot Hrep Haddr Hin Htyping. rewrite on_message_eligible by done.
  destruct respond as [[st3 ai_text] request]. simpl.
  destruct ai_text as [text|].
  2: { intros [= <- <- <-]. split; [done|]. by left. }
  destruct split_message as [chunks|] eqn:Hsplit; [|done].
  destruct (dispatch env chunks) as [sent []] eqn:Hsent; intros [= <- <- <-];
    (split; [done|]); right; exists text, chunks, sent; split_and!; try done.
  by rewrite app_nil_r.
Qed.

(** What holds of a failed completion call whenever the handler ends: the
    text of [generate_response] is the error template around the failure's
    description, it is the newest entry of the channel, under the assistant
    role, and the chunks handed to [dispatch] join back to it. *)
Lemma on_message_failure_returned fuel env st m e st' tr en :
  bounded st →
  author_bot m = false → is_reply m ≠ None → addressed m = true →
  user_input env m ≠ "" → typing_ok env = true →
  (∀ request, completion env request = Failed e) →
  on_message fuel env st m = Some (st', tr, en) →
  last (history_of st' (channel_id m))
  = Some {| role := "assistant"; content := Some (error_text e) |}
  ∧ ∃ chunks sent,
      split_message fuel (error_text e) default_limit = Some chunks
      ∧ join chunks = error_text e
      ∧ dispatch env chunks = (sent, en)
      ∧ ∃ request, tr = ApiCall request :: sent
                        ++ match en with
                           | Returned => [ProcessCommands]
                           | Raised => []
                           end.
Proof.
  intros Hst Hbot Hrep Haddr Hin Htyping Hfail Hrun.
  destruct (on_message_eligible_inv _ _ _ _ _ _ _ Hbot Hrep Haddr Hin Htyping
              Hrun) as [-> Hends].
  assert ((respond env st (channel_id m) (user_input env m)).1.2
          = Some (error_text e)) as Htext.
  { rewrite respond_unfold. simpl. apply generate_response_failed, Hfail. }
  split; [by rewrite respond_last, Htext|].
  destruct Hends as [(Hnone & _) | (text & chunks & sent & Hsome & Hsplit
                                      & Hsent & ->)]; [congruence|].
  assert (text = error_text e) as -> by congruence.
  exists chunks, sent.
  split_and!; [done | by apply split_loop_join in Hsplit | done | by eexists].
Qed.

(** C5, at the input where it fails: the completion call raises with a
    description made of a newline and 1900 letters.  [generate_response]
    returns the error template around it and the text is stored as the
    assistant turn, but cutting it never ends: the handler does not return,
    so no chunk of the text is ever sent. *)
Theorem on_message_failure_hangs fuel st :
  bounded st →
  (respond failing_env st 7 "hi").1.2
  = Some (error_text (String newline (letters 1900)))
  ∧ last (history_of (respond failing_env st 7 "hi").1.1 7)
    = Some {| role := "assistant";
              content := Some (error_text (String newline (letters 1900))) |}
  ∧ on_message fuel failing_env st (direct_message "hi") = None.
Proof.
  intros Hst.
  assert ((respond failing_env st 7 "hi").1.2
          = Some (error_text (String newline (letters 1900)))) as Htext
    by by rewrite respond_unfold.
  split_and!.
  - done.
  - by rewrite respond_last, Htext.
  - rewrite on_message_eligible by done.
    change (user_input failing_env (direct_message "hi")) with "hi".
    change (channel_id (direct_message "hi")) with 7.
    destruct (respond failing_env st 7 "hi") as [[st3 ai_text] request].
    simpl in Htext. subst ai_text. by rewrite error_text_hangs.
Qed.

Lemma on_message_failure_hangs_witness :
  on_message 100 failing_env initial_store (direct_message "hi") = None.
Proof.
  refine (proj2 (proj2 (on_message_failure_hangs 100 initial_store _))).
  intros cid d. unfold initial_store. rewrite lookup_empty. discriminate.
Defined.

(** C6: a message from a bot author, or one whose text is empty once the
    mention token is removed and the white space trimmed, leaves the store as
    it was and makes no completion call, reply or send; its handler returns,
    except that it raises for a reply to a deleted message from a human. *)
Theorem on_message_ineligible fuel env st m :
  author_bot m = true ∨ user_input env m = "" →
  ∃ tr e, on_message fuel env st m = Some (st, tr, e)
    ∧ (∀ request, ApiCall request ∉ tr)
    ∧ (∀ chunk, Reply chunk ∉ tr)
    ∧ (∀ chunk, Send chunk ∉ tr)
    ∧ (e = Raised ↔ author_bot m = false ∧ is_reply m = None).
Proof.
  intros Hcase.
  assert (∀ tr e,
            tr = [] ∨ tr = [ProcessCommands] →
            on_message fuel env st m = Some (st, tr, e) →
            (e = Raised ↔ author_bot m = false ∧ is_reply m = None) →
            ∃ tr e, on_message fuel env st m = Some (st, tr, e)
              ∧ (∀ request, ApiCall request ∉ tr)
              ∧ (∀ chunk, Reply chunk ∉ tr)
              ∧ (∀ chunk, Send chunk ∉ tr)
              ∧ (e = Raised ↔ author_bot m = false ∧ is_reply m = None))
    as Hshape.
  { intros tr e Htr Hrun He. exists tr, e. destruct Htr as [-> | ->].
    - split_and!; [done | intros ? ?%elem_of_nil; done.. | done].
    - split_and!; [done | intros ? ?%list_elem_of_singleton; done.. | done]. }
  destruct (on_message_cases env m)
    as [Hbot | [[Hbot Hdel] | [(Hbot & Hrep & Haddr)
        | [(Hbot & Hrep & Haddr & Hin) | (Hbot & Hrep & Haddr & Hin)]]]].
  - apply (Hshape [] Returned); [by left | by apply on_message_bot |].
    split; [done | intros [? _]; congruence].
  - apply (Hshape [] Raised);
      [by left | by apply on_message_deleted_reference | done].
  - apply (Hshape [ProcessCommands] Returned);
      [by right | by apply on_message_not_addressed |].
    split; [done | intros [_ ?]; done].
  - apply (Hshape [] Returned); [by left | by apply on_message_empty_input |].
    split; [done | intros [_ ?]; done].
  - destruct Hcase; congruence.
Qed.

Lemma on_message_ineligible_witness :
  ∃ tr e, on_message 0 answering_env
            (add_to_history initial_store 7 "user" (Some "earlier")) mention_only
          = Some (add_to_history initial_store 7 "user" (Some "earlier"), tr, e)
    ∧ (∀ request, ApiCall request ∉ tr)
    ∧ (∀ chunk, Reply chunk ∉ tr)
    ∧ (∀ chunk, Send chunk ∉ tr)
    ∧ (e = Raised
       ↔ author_bot mention_only = false ∧ is_reply mention_only = None).
Proof.
  apply (on_message_ineligible 0 answering_env _ mention_only).
  right. reflexivity.
Defined.

(** C7 as stated fails: the handler of a message from a bot author, and that
    of a message to the bot with nothing but the mention in it, return with
    an empty trace, so command dispatch is not reached for every message. *)
Lemma process_commands_skipped :
  on_message 0 answering_env initial_store (bot_message "!help")
  = Some (initial_store, [], Returned)
  ∧ on_message 0 answering_env initial_store mention_only
    = Some (initial_store, [], Returned)
  ∧ ¬ (∀ fuel env st m, ∃ st' tr e,
          on_message fuel env st m = Some (st', tr, e) ∧ ProcessCommands ∈ tr).
Proof.
  split_and!; [reflexivity | reflexivity |].
  intros Hall.
  destruct (Hall 0%nat answering_env initial_store (bot_message "!help"))
    as (st' & tr & e & Hrun & Hin).
  assert (tr = []) as -> by (vm_compute in Hrun; congruence).
  by apply elem_of_nil in Hin.
Qed.

(** C7, amended: command dispatch is reached, as the last step, for every
    message of a non-bot author that is not addressed to the bot and is not a
    reply to a deleted message, and for every addressed one with non-empty
    text whose handler returns; for a bot author, and for an addressed message
    whose text is empty, the handler returns before it. *)
Theorem process_commands_reached fuel env st m :
  (author_bot m = true → on_message fuel env st m = Some (st, [], Returned))
  ∧ (author_bot m = false → is_reply m ≠ None → addressed m = true →
       user_input env m = "" →
       on_message fuel env st m = Some (st, [], Returned))
  ∧ (author_bot m = false → is_reply m ≠ None → addressed m = false →
       on_message fuel env st m = Some (st, [ProcessCommands], Returned))
  ∧ (author_bot m = false → addressed m = true → user_input env m ≠ "" →
       ∀ st' tr, on_message fuel env st m = Some (st', tr, Returned) →
         last tr = Some ProcessCommands).
Proof.
  split_and!.
  - apply on_message_bot.
  - apply on_message_empty_input.
  - apply on_message_not_addressed.
  - intros Hbot Haddr Hin st' tr Hrun.
    destruct (is_reply m) as [reply|] eqn:Hrep.
    2: { by rewrite on_message_deleted_reference in Hrun. }
    destruct (typing_ok env) eqn:Htyping.
    2: { by rewrite on_message_typing_failed in Hrun by (done || congruence). }
    destruct (on_message_eligible_inv _ _ _ _ _ _ _ Hbot
                ltac:(congruence) Haddr Hin Htyping Hrun)
      as [_ [(_ & _ & ?) | (text & chunks & sent & _ & _ & _ & ->)]]; [done|].
    by rewrite app_comm_cons, last_snoc.
Qed.

Lemma process_commands_reached_witness :
  on_message 0 answering_env initial_store (bot_message "!help")
  = Some (initial_store, [], Returned)
  ∧ on_message 0 answering_env initial_store mention_only
    = Some (initial_store, [], Returned)
  ∧ on_message 0 answering_env initial_store (channel_message "!help")
    = Some (initial_store, [ProcessCommands], Returned)
  ∧ last [ApiCall (request_messages
                     (deque_append (deque_new capacity)
                        {| role := "user"; content := Some "hi" |}));
          Reply "ok"; ProcessCommands]
    = Some ProcessCommands.
Proof.
  split_and!.
  - refine (proj1 (process_commands_reached 0 answering_env initial_store
        (bot_message "!help")) _). reflexivity.
  - refine (proj1 (proj2 (process_commands_reached 0 answering_env
        initial_store mention_only)) _ _ _ _);
      [reflexivity | discriminate | reflexivity | reflexivity].
  - refine (proj1 (proj2 (proj2 (process_commands_reached 0 answering_env
        initial_store (channel_message "!help")))) _ _ _);
      [reflexivity | discriminate | reflexivity].
  - refine (proj2 (proj2 (proj2 (process_commands_reached 0 answering_env
        initial_store (direct_message "hi")))) _ _ _
        (add_to_history (add_to_history initial_store 7 "user" (Some "hi"))
           7 "assistant" (Some "ok")) _ _);
      [reflexivity | reflexivity | discriminate | reflexivity].
Defined.

(** The ways the handler raises, and a run with other tasks in between. *)
Example on_message_deleted_reply :
  on_message 0 answering_env initial_store (deleted_reply "hi")
  = Some (initial_store, [], Raised).
Proof. reflexivity. Qed.

Example on_message_stalled :
  on_message 0 stalled_env initial_store (direct_message "hi")
  = Some (add_to_history initial_store 7 "user" (Some "hi"), [], Raised).
Proof. reflexivity. Qed.

Example on_message_silent :
  on_message 0 silent_env initial_store (direct_message "hi")
  = Some (add_to_history (add_to_history initial_store 7 "user" (Some "hi"))
            7 "assistant" None,
          [ApiCall [system_msg; {| role := "user"; content := Some "hi" |}]],
          Raised).
Proof. reflexivity. Qed.

Example on_message_busy :
  ∃ st',
    on_message 0 busy_env initial_store (direct_message "hi")
    = Some (st',
            [ApiCall [system_msg;
                      {| role := "user"; content := Some "hi" |};
                      {| role := "user"; content := Some "other" |}];
             Reply "ok"; ProcessCommands],
            Returned)
    ∧ history_of st' 7 = [{| role := "assistant"; content := Some "ok" |}].
Proof. eexists. split; reflexivity. Qed.

(** The only call in a trace is the request [respond] built. *)
Lemma on_message_api_call fuel env st m st' tr e request :
  on_message fuel env st m = Some (st', tr, e) → ApiCall request ∈ tr →
  request
  = (respond env st (channel_id m) (user_input env m)).2.
Proof.
  destruct (on_message_cases env m)
    as [Hbot | [[Hbot Hdel] | [(Hbot & Hrep & Haddr)
        | [(Hbot & Hrep & Haddr & Hin) | (Hbot & Hrep & Haddr & Hin)]]]].
  - rewrite on_message_bot by done. by intros [= _ <- _] ?%elem_of_nil.
  - rewrite on_message_deleted_reference by done.
    by intros [= _ <- _] ?%elem_of_nil.
  - rewrite on_message_not_addressed by done.
    by intros [= _ <- _] ?%list_elem_of_singleton.
  - rewrite on_message_empty_input by done. by intros [= _ <- _] ?%elem_of_nil.
  - destruct (typing_ok env) eqn:Htyping.
    2: { rewrite on_message_typing_failed by done.
         by intros [= _ <- _] ?%elem_of_nil. }
    intros Hrun Hcall.
    destruct (on_message_eligible_inv _ _ _ _ _ _ _ Hbot Hrep Haddr Hin Htyping
                Hrun)
      as [_ [(_ & -> & _) | (text & chunks & sent & _ & _ & Hsent & ->)]].
    + by apply list_elem_of_singleton in Hcall as [= ->].
    + pose proof (dispatch_events _ _ _ _ Hsent) as Hsent'.
      assert (ApiCall request ∈ sent → False) as Hnot.
      { intros Hin'. rewrite Forall_forall in Hsent'.
        destruct (Hsent' _ Hin') as (chunk & _ & [? | ?]); done. }
      apply elem_of_cons in Hcall as [[= ->] | Hcall]; [done|].
      apply elem_of_app in Hcall as [? | Hcall]; [done|].
      destruct e; [by apply list_elem_of_singleton in Hcall
                  | by apply elem_of_nil in Hcall].
Qed.

(** C10: in every store the process can reach, each stored entry has the
    role user or assistant, and the system message is in no history; the
    system message exists only at the head of the request, in front of the
    items read from the channel's history, which after the user turn, and
    whatever the other tasks stored since, are all user and assistant
    entries. *)
Theorem stored_roles_user_or_assistant :
  (∀ st cid e, reachable st → e ∈ history_of st cid →
      role e = "user" ∨ role e = "assistant")
  ∧ (∀ st cid, reachable st → system_msg ∉ history_of st cid)
  ∧ (∀ d, request_messages d = system_msg :: items d
          ∧ role system_msg = "system")
  ∧ (∀ fuel env st m st' tr e request,
      reachable st → on_message fuel env st m = Some (st', tr, e) →
      ApiCall request ∈ tr →
      request
      = system_msg
        :: history_of
             (run_ops
                (add_to_history st (channel_id m) "user"
                   (Some (user_input env m)))
                (during_typing env))
             (channel_id m)
      ∧ Forall stored_role (tail request)).
Proof.
  assert (∀ st cid, roles_ok st → Forall stored_role (history_of st cid))
    as Hhist.
  { intros st cid Hst. rewrite history_of_lookup.
    destruct (st !! cid) eqn:Hd; simpl; [by eapply Hst | done]. }
  split_and!.
  - intros st cid e Hst%reachable_roles He.
    specialize (Hhist st cid Hst). rewrite Forall_forall in Hhist.
    by apply Hhist.
  - intros st cid Hst%reachable_roles He.
    specialize (Hhist st cid Hst). rewrite Forall_forall in Hhist.
    by destruct (Hhist _ He).
  - done.
  - intros fuel env st m st' tr e request Hst%reachable_roles Hrun Hcall.
    rewrite (on_message_api_call _ _ _ _ _ _ _ _ Hrun Hcall).
    rewrite respond_unfold. simpl. split; [done|].
    apply Hhist, run_ops_roles, add_to_history_roles; [done | by left].
Qed.

Lemma stored_roles_user_or_assistant_witness :
  (role {| role := "assistant"; content := Some "ok" |} = "user"
   ∨ role {| role := "assistant"; content := Some "ok" |} = "assistant")
  ∧ (system_msg ∉ history_of initial_store 7)
  ∧ request_messages
      (deque_append (deque_new capacity)
         {| role := "user"; content := Some "hi" |})
    = [system_msg; {| role := "user"; content := Some "hi" |}].
Proof.
  destruct stored_roles_user_or_assistant as (Hroles & Hsystem & _ & Hrequest).
  assert (on_message 0 answering_env initial_store (direct_message "hi")
          = Some (add_to_history
                    (add_to_history initial_store 7 "user" (Some "hi"))
                    7 "assistant" (Some "ok"),
                  [ApiCall (request_messages
                              (deque_append (deque_new capacity)
                                 {| role := "user"; content := Some "hi" |}));
                   Reply "ok"; ProcessCommands],
                  Returned)) as Hrun by reflexivity.
  split_and!.
  - apply (Hroles _ 7 _ (reach_message _ _ _ _ _ _ _ reach_start Hrun)).
    vm_compute. apply list_elem_of_further, list_elem_of_here.
  - apply (Hsystem initial_store 7 reach_start).
  - refine (proj1 (Hrequest _ _ _ _ _ _ _ _ reach_start Hrun _)).
    apply list_elem_of_here.
Defined.

(** * Further properties *)

(** ** More on the chunker *)

Section chunker_more.
Implicit Types (text : string) (limit : Z) (chunks acc : list string).

Lemma length_zero_empty text : String.length text = 0%nat → text = "".
Proof. by destruct text. Qed.

Lemma length_slice_from text k :
  0 ≤ k ≤ Z.of_nat (String.length text) →
  String.length (slice_from text k) = (String.length text - Z.to_nat k)%nat.
Proof.
  intros Hk. unfold slice_from.
  rewrite length_str_drop, slice_bound_nonneg by lia. lia.
Qed.

Lemma length_slice_to_exact text k :
  0 ≤ k ≤ Z.of_nat (String.length text) →
  String.length (slice_to text k) = Z.to_nat k.
Proof.
  intros Hk. unfold slice_to.
  rewrite length_str_take, slice_bound_nonneg by lia. lia.
Qed.

(** A pass that cuts at index 0 leaves the text as it is. *)
Lemma split_loop_zero_cut fuel text limit acc :
  Z.of_nat (String.length text) > limit →
  split_index text limit = 0 →
  split_loop fuel text limit acc = None.
Proof.
  intros Hgt Hzero. apply split_loop_stuck; [done|].
  rewrite Hzero. apply (slice_from_nat text 0). lia.
Qed.

(** Whenever a pass is followed by a result, its cut is inside the text and
    not at its start. *)
Lemma split_loop_cut_positive fuel text limit acc out :
  Z.of_nat (String.length text) > limit →
  split_loop (S fuel) text limit acc = Some out →
  0 < split_index text limit ≤ limit
  ∧ split_index text limit < Z.of_nat (String.length text).
Proof.
  intros Hgt Hout.
  destruct (Z_lt_le_dec limit 0) as [Hneg | Hpos].
  { by rewrite split_loop_negative in Hout. }
  pose proof (split_index_range text limit Hpos).
  destruct (decide (split_index text limit = 0)) as [Hzero|].
  { by rewrite split_loop_zero_cut in Hout. }
  lia.
Qed.

Lemma split_loop_nonempty fuel text limit acc out :
  split_loop fuel text limit acc = Some out → text ≠ "" →
  ∃ segs, out = acc ++ segs ∧ Forall (λ c, c ≠ "") segs.
Proof.
  revert text acc. induction fuel as [|fuel IH]; intros text acc.
  - destruct (Z_le_gt_dec (Z.of_nat (String.length text)) limit).
    + rewrite split_loop_exit by done. intros [= <-] ?. exists [text].
      split; [done | by constructor].
    + by rewrite split_loop_out_of_fuel.
  - destruct (Z_le_gt_dec (Z.of_nat (String.length text)) limit) as [|Hgt].
    + rewrite split_loop_exit by done. intros [= <-] ?. exists [text].
      split; [done | by constructor].
    + intros Hout _.
      destruct (split_loop_cut_positive _ _ _ _ _ Hgt Hout) as [Hcut Hin].
      rewrite split_loop_iter in Hout by done.
      destruct (IH _ _ Hout) as (segs & -> & Hsegs).
      { intros Hrest. apply (f_equal String.length) in Hrest.
        rewrite length_slice_from in Hrest by lia. simpl in Hrest. lia. }
      eexists (_ :: segs). split; [by rewrite <- app_assoc|].
      constructor; [|done].
      intros Hseg. apply (f_equal String.length) in Hseg.
      rewrite length_slice_to_exact in Hseg by lia. simpl in Hseg. lia.
Qed.
End chunker_more.

(** X1: [split_message] returns a single chunk exactly when the text is no
    longer than the limit, and that chunk is the text. *)
Theorem split_message_single fuel text limit :
  (Z.of_nat (String.length text) ≤ limit →
     split_message fuel text limit = Some [text])
  ∧ (∀ chunk, split_message fuel text limit = Some [chunk] →
       Z.of_nat (String.length text) ≤ limit ∧ chunk = text).
Proof.
  unfold split_message. split.
  - intros Hle. by rewrite split_loop_exit.
  - intros chunk.
    destruct (Z_le_gt_dec (Z.of_nat (String.length text)) limit) as [Hle|Hgt].
    + rewrite split_loop_exit by done. by intros [= <-].
    + destruct fuel as [|fuel]; [by rewrite split_loop_out_of_fuel|].
      rewrite split_loop_iter by done. intros Hout.
      apply split_loop_segments in Hout as (segs & final & Hout & _).
      apply (f_equal length) in Hout. simpl in Hout.
      rewrite length_app in Hout. simpl in Hout. lia.
Qed.

Lemma split_message_single_witness :
  split_message 0 "hello" 1900 = Some ["hello"]
  ∧ Z.of_nat (String.length "hello") ≤ 1900.
Proof.
  split.
  - refine (proj1 (split_message_single 0 "hello" 1900) _). simpl. lia.
  - refine (proj1 (proj2 (split_message_single 0 "hello" 1900) "hello" _)).
    reflexivity.
Defined.

(** X2: the chunks returned for a non-empty text are all non-empty. *)
Theorem split_message_no_empty_chunk fuel text limit chunks :
  split_message fuel text limit = Some chunks → text ≠ "" →
  Forall (λ c, c ≠ "") chunks.
Proof.
  intros Hout Htext.
  by destruct (split_loop_nonempty _ _ _ _ _ Hout Htext) as (segs & -> & ?).
Qed.

Lemma split_message_no_empty_chunk_witness :
  Forall (λ c, c ≠ "") ["ab"; String newline "cd"; String newline "ef"].
Proof.
  apply (split_message_no_empty_chunk 2
           ("ab" +:+ String newline "cd" +:+ String newline "ef") 4);
    [reflexivity | discriminate].
Defined.

Section chunker_termination.
Implicit Types (text : string) (limit : Z) (chunks acc : list string).

Lemma slice_from_drop text k :
  0 ≤ k ≤ Z.of_nat (String.length text) →
  slice_from text k = str_drop (Z.to_nat k) text.
Proof.
  intros Hk. unfold slice_from. rewrite slice_bound_nonneg by lia.
  f_equal. lia.
Qed.

Lemma slice_to_take text k :
  0 ≤ k ≤ Z.of_nat (String.length text) →
  slice_to text k = str_take (Z.to_nat k) text.
Proof.
  intros Hk. unfold slice_to. rewrite slice_bound_nonneg by lia.
  f_equal. lia.
Qed.

Lemma get_str_take n i text :
  (i < n)%nat → String.get i (str_take n text) = String.get i text.
Proof.
  revert i text. induction n as [|n IH]; intros i [|c text] Hi; simpl;
    try done; try lia.
  destruct i as [|i]; [done|]. apply IH. lia.
Qed.

(** The two ways a pass chooses its cut. *)
Lemma split_index_cases text limit :
  (∃ i, last_newline_before text (slice_bound (String.length text) limit) i
        ∧ split_index text limit = Z.of_nat i)
  ∨ ((∀ j, (j < slice_bound (String.length text) limit)%nat →
           ¬ newline_at text j)
     ∧ split_index text limit = limit).
Proof.
  destruct (rfind_between newline text 0
              (slice_bound (String.length text) limit)) as [i|] eqn:Hr.
  - left. exists i.
    apply rfind_between_Some in Hr as ([_ ?] & Hget & Hlast).
    assert (last_newline_before text
              (slice_bound (String.length text) limit) i) as Hi
      by (split_and!; [done | done | intros j Hj; by apply Hlast]).
    split; [done | by apply split_index_newline].
  - right. pose proof (rfind_between_None _ _ _ _ Hr) as Hnone.
    assert (∀ j, (j < slice_bound (String.length text) limit)%nat →
                 ¬ newline_at text j) as Hfree
      by (intros j Hj; apply Hnone; lia).
    split; [done | by apply split_index_hard].
Qed.

Lemma newline_followed_drop text limit k :
  (k ≤ String.length text)%nat →
  newline_followed text limit → newline_followed (str_drop k text) limit.
Proof.
  intros Hk Htext i Hnl Hfar. unfold newline_at in *.
  rewrite get_str_drop in Hnl. rewrite length_str_drop in Hfar.
  destruct (Htext (k + i)%nat Hnl) as (j & Hj & Hnear & Hnlj); [lia|].
  exists (j - k)%nat. split_and!; [lia | lia |].
  rewrite get_str_drop. by replace (k + (j - k))%nat with j by lia.
Qed.

Lemma split_loop_terminates fuel text limit acc :
  0 < limit → newline_followed text limit →
  (String.length text ≤ fuel)%nat →
  ∃ chunks, split_loop fuel text limit acc = Some chunks.
Proof.
  intros Hl. revert text acc.
  induction fuel as [|fuel IH]; intros text acc Hfol Hlen.
  - exists (acc ++ [text]). apply split_loop_exit. lia.
  - destruct (Z_le_gt_dec (Z.of_nat (String.length text)) limit) as [|Hgt].
    { exists (acc ++ [text]). by apply split_loop_exit. }
    rewrite split_loop_iter by done.
    assert (0 < split_index text limit ≤ limit) as Hcut.
    { destruct (split_index_cases text limit)
        as [(i & (Hi & Hnl & Hlast) & ->) | [_ ->]]; [|lia].
      rewrite slice_bound_inside in Hi, Hlast by lia.
      destruct i as [|i]; [|lia].
      destruct (Hfol 0%nat Hnl) as (j & ? & ? & Hj); [lia|].
      destruct (Hlast j); [lia | done]. }
    rewrite slice_from_drop by lia. apply IH.
    + apply newline_followed_drop; [lia | done].
    + rewrite length_str_drop. lia.
Qed.

Lemma split_loop_returns_followed fuel text limit acc out :
  0 < limit → split_loop fuel text limit acc = Some out →
  newline_followed text limit.
Proof.
  intros Hl. revert text acc. induction fuel as [|fuel IH]; intros text acc.
  - destruct (Z_le_gt_dec (Z.of_nat (String.length text)) limit).
    + intros _ i _ Hfar. lia.
    + by rewrite split_loop_out_of_fuel.
  - destruct (Z_le_gt_dec (Z.of_nat (String.length text)) limit) as [|Hgt].
    { intros _ i _ Hfar. lia. }
    intros Hout.
    destruct (split_loop_cut_positive _ _ _ _ _ Hgt Hout) as [Hcut Hin].
    rewrite split_loop_iter, slice_from_drop in Hout by lia.
    specialize (IH _ _ Hout).
    intros i Hnl Hfar.
    destruct (Z_lt_le_dec (Z.of_nat i) (split_index text limit)) as [Hlow|Hhigh].
    + destruct (split_index_cases text limit)
        as [(c & (Hc & Hnlc & _) & Heq) | [Hfree Heq]].
      * rewrite slice_bound_inside in Hc by lia.
        exists c. split_and!; [lia | lia | done].
      * destruct (Hfree i); [|done].
        rewrite slice_bound_inside by lia. lia.
    + destruct (IH (i - Z.to_nat (split_index text limit))%nat)
        as (j & ? & ? & Hj).
      * unfold newline_at. rewrite get_str_drop.
        by replace (Z.to_nat (split_index text limit)
                    + (i - Z.to_nat (split_index text limit)))%nat
          with i by lia.
      * rewrite length_str_drop. lia.
      * exists (Z.to_nat (split_index text limit) + j)%nat.
        split_and!; [lia | lia |].
        unfold newline_at in *. by rewrite get_str_drop in Hj.
Qed.
End chunker_termination.

(** X3: for a positive limit, [split_message] returns on exactly the texts
    in which every newline with more than [limit] characters from it to the
    end has another newline less than [limit] characters after it; on those,
    the length of the text is enough fuel. *)
Theorem split_message_returns_iff text limit :
  0 < limit →
  ((∃ fuel chunks, split_message fuel text limit = Some chunks)
   ↔ newline_followed text limit)
  ∧ (newline_followed text limit →
     ∃ chunks, split_message (String.length text) text limit = Some chunks).
Proof.
  intros Hl. split; [split|].
  - intros (fuel & chunks & Hout). by eapply split_loop_returns_followed.
  - intros Hfol. exists (String.length text).
    by apply split_loop_terminates.
  - intros Hfol. by apply split_loop_terminates.
Qed.

Lemma split_message_returns_iff_witness :
  newline_followed ("ab" +:+ String newline "cd" +:+ String newline "ef") 4
  ∧ ¬ newline_followed (String newline "ab") 2.
Proof.
  split.
  - refine (proj1 (proj1 (split_message_returns_iff _ 4 _)) _); [lia|].
    exists 2%nat. eexists. reflexivity.
  - intros Hfol.
    destruct (proj2 (split_message_returns_iff (String newline "ab") 2
                       ltac:(lia)) Hfol) as [chunks Hout].
    vm_compute in Hout. discriminate.
Defined.

(** X4: with a limit of zero or less [split_message] returns only for the
    empty text at limit 0, and then the single empty chunk. *)
Theorem split_message_nonpositive_limit fuel text limit chunks :
  limit ≤ 0 →
  split_message fuel text limit = Some chunks
  ↔ limit = 0 ∧ text = "" ∧ chunks = [""].
Proof.
  intros Hl. unfold split_message. split.
  - destruct (Z_lt_le_dec limit 0) as [Hneg|Hpos].
    { by rewrite split_loop_negative. }
    assert (limit = 0) as -> by lia.
    destruct text as [|c text].
    + rewrite split_loop_exit by (simpl; lia). by intros [= <-].
    + rewrite split_loop_zero_cut; [done | simpl; lia |].
      pose proof (split_index_range (String c text) 0). lia.
  - intros (-> & -> & ->). by rewrite split_loop_exit.
Qed.

Lemma split_message_nonpositive_limit_witness :
  split_message 5 "" 0 = Some [""].
Proof.
  apply (split_message_nonpositive_limit 5 "" 0 [""]); [lia | done].
Defined.

Section chunker_shape.
Implicit Types (text : string) (limit : Z) (chunks acc : list string).

Lemma blocks_without_newline fuel text limit acc :
  0 < limit → (∀ j, ¬ newline_at text j) →
  (String.length text ≤ fuel)%nat →
  ∃ segs final,
    split_loop fuel text limit acc = Some (acc ++ segs ++ [final])
    ∧ Forall (λ c, Z.of_nat (String.length c) = limit) segs
    ∧ Z.of_nat (length segs) + 1
      = Z.max 1 ((Z.of_nat (String.length text) + limit - 1) / limit).
Proof.
  intros Hl. revert text acc.
  assert (∀ n, 0 ≤ n ≤ limit → 0 + 1 = Z.max 1 ((n + limit - 1) / limit))
    as Hsmall.
  { intros n Hn. assert ((n + limit - 1) / limit < 2); [|lia].
    apply Z.div_lt_upper_bound; lia. }
  induction fuel as [|fuel IH]; intros text acc Hfree Hlen.
  - exists [], text. rewrite split_loop_exit by lia.
    split_and!; [done | done | apply Hsmall; lia].
  - destruct (Z_le_gt_dec (Z.of_nat (String.length text)) limit) as [|Hgt].
    { exists [], text. rewrite split_loop_exit by lia.
      split_and!; [done | done | apply Hsmall; lia]. }
    rewrite split_loop_iter, split_index_hard by eauto.
    destruct (IH (slice_from text limit) (acc ++ [slice_to text limit]))
      as (segs & final & -> & Hsegs & Hcount).
    + intros j. unfold newline_at, slice_from. rewrite get_str_drop.
      apply Hfree.
    + rewrite length_slice_from; lia.
    + exists (slice_to text limit :: segs), final.
      split_and!; [by rewrite <- app_assoc | |].
      * constructor; [|done]. rewrite length_slice_to_exact; lia.
      * rewrite length_slice_from in Hcount by lia. simpl length.
        replace (Z.of_nat (String.length text) + limit - 1)
          with (Z.of_nat (String.length text) - 1 + 1 * limit) by lia.
        rewrite Z.div_add by lia.
        replace (Z.of_nat (String.length text - Z.to_nat limit) + limit - 1)
          with (Z.of_nat (String.length text) - 1) in Hcount by lia.
        assert (1 ≤ (Z.of_nat (String.length text) - 1) / limit)
          by (apply Z.div_le_lower_bound; lia).
        lia.
Qed.

(** What one run of the loop adds: chunks whose first starts like the text,
    and of which each is cut at a newline or is [limit] long. *)
Lemma split_loop_boundaries fuel text limit acc out :
  split_loop fuel text limit acc = Some out →
  ∃ segs, out = acc ++ segs
    ∧ (∀ c, head segs = Some c → String.get 0 c = String.get 0 text)
    ∧ ∀ k c c', segs !! k = Some c → segs !! S k = Some c' →
        String.get 0 c' = Some newline ∨ Z.of_nat (String.length c) = limit.
Proof.
  revert text acc. induction fuel as [|fuel IH]; intros text acc.
  - destruct (Z_le_gt_dec (Z.of_nat (String.length text)) limit).
    + rewrite split_loop_exit by done. intros [= <-]. exists [text].
      split_and!; [done | by intros c [= <-] | by intros [|k] c c'].
    + by rewrite split_loop_out_of_fuel.
  - destruct (Z_le_gt_dec (Z.of_nat (String.length text)) limit) as [|Hgt].
    { rewrite split_loop_exit by done. intros [= <-]. exists [text].
      split_and!; [done | by intros c [= <-] | by intros [|k] c c']. }
    intros Hout.
    destruct (split_loop_cut_positive _ _ _ _ _ Hgt Hout) as [Hcut Hin].
    rewrite split_loop_iter in Hout by done.
    destruct (IH _ _ Hout) as (segs & -> & Hhead & Hpairs).
    exists (slice_to text (split_index text limit) :: segs).
    split_and!; [by rewrite <- app_assoc | |].
    + intros c [= <-]. rewrite slice_to_take by lia.
      apply get_str_take. lia.
    + intros [|k] c c'; simpl; [|apply Hpairs].
      intros [= <-] Hc'. rewrite (Hhead c') by by destruct segs.
      rewrite slice_from_drop, get_str_drop, Nat.add_0_r by lia.
      destruct (split_index_cases text limit)
        as [(i & (_ & Hnl & _) & Heq) | [_ Heq]].
      * left. rewrite Heq, Nat2Z.id. apply Hnl.
      * right. rewrite Heq, length_slice_to_exact; lia.
Qed.
End chunker_shape.

(** X5: a text without newlines is cut, for a positive limit, into blocks
    of exactly [limit] characters followed by what is left, which makes
    max(1, ceil(len / limit)) chunks. *)
Theorem split_message_without_newline text limit :
  0 < limit → (∀ j, ¬ newline_at text j) →
  ∃ chunks, split_message (String.length text) text limit = Some chunks
    ∧ (∀ k c, chunks !! k = Some c → (S k < length chunks)%nat →
         Z.of_nat (String.length c) = limit)
    ∧ Z.of_nat (length chunks)
      = Z.max 1 ((Z.of_nat (String.length text) + limit - 1) / limit).
Proof.
  intros Hl Hfree.
  destruct (blocks_without_newline (String.length text) text limit [] Hl Hfree)
    as (segs & final & Hout & Hsegs & Hcount); [done|].
  exists (segs ++ [final]). split_and!; [done | |].
  - intros k c Hk Hlast. rewrite length_app in Hlast. simpl in Hlast.
    rewrite lookup_app_l in Hk by lia.
    by apply (Forall_lookup_1 _ _ _ _ Hsegs Hk).
  - rewrite length_app. simpl. lia.
Qed.

Lemma split_message_without_newline_witness :
  ∃ chunks, split_message 7 "abcdefg" 3 = Some chunks
    ∧ (∀ k c, chunks !! k = Some c → (S k < length chunks)%nat →
         Z.of_nat (String.length c) = 3)
    ∧ Z.of_nat (length chunks) = Z.max 1 ((7 + 3 - 1) / 3).
Proof.
  apply (split_message_without_newline "abcdefg" 3); [lia|].
  intros j. unfold newline_at.
  do 7 (destruct j as [|j]; [discriminate|]). discriminate.
Defined.

(** X6: of two consecutive chunks that [split_message] returns, the second
    starts with a newline or the first is exactly [limit] long: the text is
    cut only in front of a newline or after a full block. *)
Theorem split_message_boundaries fuel text limit chunks k c c' :
  split_message fuel text limit = Some chunks →
  chunks !! k = Some c → chunks !! S k = Some c' →
  String.get 0 c' = Some newline ∨ Z.of_nat (String.length c) = limit.
Proof.
  intros Hout.
  destruct (split_loop_boundaries _ _ _ _ _ Hout) as (segs & -> & _ & Hpairs).
  apply Hpairs.
Qed.

Lemma split_message_boundaries_witness :
  (String.get 0 "e" = Some newline ∨ Z.of_nat (String.length "abcd") = 4)
  ∧ (String.get 0 (String newline "fgh") = Some newline
     ∨ Z.of_nat (String.length "e") = 4).
Proof.
  split.
  - apply (split_message_boundaries 2 ("abcde" +:+ String newline "fgh") 4
             ["abcd"; "e"; String newline "fgh"] 0 "abcd" "e");
      reflexivity.
  - apply (split_message_boundaries 2 ("abcde" +:+ String newline "fgh") 4
             ["abcd"; "e"; String newline "fgh"] 1 "e" (String newline "fgh"));
      reflexivity.
Defined.

(** ** More on the history cache and the orchestrator *)

Section orchestrator_more.
Implicit Types (st : store) (env : environment) (m : message) (d : deque).
Implicit Types (op : store_op) (ops : list store_op).

Lemma well_formed_bounded st : well_formed st → bounded st.
Proof. intros Hst cid d Hd. by destruct (Hst cid d Hd). Qed.

Lemma well_formed_history st cid :
  well_formed st → (length (history_of st cid) ≤ capacity)%nat.
Proof.
  intros Hst. rewrite history_of_lookup.
  destruct (st !! cid) as [d|] eqn:Hd; simpl; [|lia].
  by destruct (Hst cid d Hd).
Qed.

Lemma deque_append_length d x :
  (length (items d) ≤ maxlen d)%nat →
  (length (items (deque_append d x)) ≤ maxlen d)%nat.
Proof.
  intros Hd. unfold deque_append. simpl.
  destruct (Nat.ltb_spec (maxlen d) (length (items d ++ [x]))) as [|Hle].
  - rewrite length_drop, length_app. simpl. lia.
  - done.
Qed.

Lemma add_to_history_well_formed st cid r c :
  well_formed st → well_formed (add_to_history st cid r c).
Proof.
  intros Hst cid' d'.
  destruct (decide (cid = cid')) as [<-|Hne].
  - rewrite add_to_history_lookup. intros [= <-].
    assert (maxlen (get_history st cid).1 = capacity
            ∧ (length (items (get_history st cid).1) ≤ capacity)%nat)
      as [Hmax Hlen].
    { unfold get_history. destruct (st !! cid) as [d|] eqn:Hd; simpl.
      - by apply (Hst cid).
      - split; [done | lia]. }
    split; [done|]. rewrite <- Hmax. apply deque_append_length. lia.
  - rewrite add_to_history_lookup_ne by done. apply Hst.
Qed.

Lemma clear_history_well_formed st cid :
  well_formed st → well_formed (clear_history st cid).
Proof.
  intros Hst cid' d'. unfold clear_history.
  destruct (st !! cid) as [d|] eqn:Hd; [|apply Hst].
  destruct (decide (cid = cid')) as [<-|Hne].
  - rewrite lookup_insert_eq. intros [= <-]. simpl.
    split; [by apply (Hst cid) | lia].
  - rewrite lookup_insert_ne by done. apply Hst.
Qed.

Lemma get_history_well_formed st cid :
  well_formed st → well_formed (get_history st cid).2.
Proof.
  intros Hst cid' d'. unfold get_history.
  destruct (st !! cid) as [d|] eqn:Hd; simpl; [apply Hst|].
  destruct (decide (cid = cid')) as [<-|Hne].
  - rewrite lookup_insert_eq. intros [= <-]. simpl. split; [done | lia].
  - rewrite lookup_insert_ne by done. apply Hst.
Qed.

Lemma run_op_well_formed st op : well_formed st → well_formed (run_op st op).
Proof.
  intros Hst. destruct op as [c t|c t|c|c]; simpl.
  - by apply add_to_history_well_formed.
  - by apply add_to_history_well_formed.
  - by apply get_history_well_formed.
  - by apply clear_history_well_formed.
Qed.

Lemma run_ops_well_formed st ops :
  well_formed st → well_formed (run_ops st ops).
Proof.
  intros Hst. induction ops as [|op ops IH] using rev_ind; [done|].
  rewrite run_ops_snoc. by apply run_op_well_formed.
Qed.

Lemma respond_well_formed env st cid input :
  well_formed st → well_formed (respond env st cid input).1.1.
Proof.
  intros Hst. rewrite respond_unfold. simpl.
  by apply add_to_history_well_formed, run_ops_well_formed,
    get_history_well_formed, run_ops_well_formed, add_to_history_well_formed.
Qed.

Lemma reachable_is_well_formed st : reachable st → well_formed st.
Proof.
  induction 1 as [|st cid _ IH|st op _ IH|st fuel env m st' tr e _ IH Hrun
                  |st env m _ IH].
  - intros cid d. unfold initial_store. by rewrite lookup_empty.
  - by apply clear_history_well_formed.
  - by apply run_op_well_formed.
  - apply on_message_store in Hrun as [-> | [-> | ->]]; [done | |].
    + by apply add_to_history_well_formed.
    + by apply respond_well_formed.
  - by apply respond_well_formed.
Qed.

(** On a well-formed store an append keeps the last 15 of the longer list. *)
Lemma history_of_add_last_n st cid r c :
  well_formed st →
  history_of (add_to_history st cid r c) cid
  = last_n capacity (history_of st cid ++ [{| role := r; content := c |}]).
Proof.
  intros Hst.
  rewrite history_of_add by by apply bounded_lookup, well_formed_bounded.
  pose proof (well_formed_history st cid Hst) as Hlen.
  assert (last_n capacity (history_of st cid) = history_of st cid) as Hall.
  { unfold last_n.
    by replace (length (history_of st cid) - capacity)%nat with 0%nat by lia. }
  rewrite <- last_n_snoc. by rewrite Hall.
Qed.

Lemma last_n_last_n {A} n (l : list A) : last_n n (last_n n l) = last_n n l.
Proof.
  unfold last_n at 1. rewrite length_last_n.
  by replace (length l `min` n - n)%nat with 0%nat by lia.
Qed.

Lemma last_n_last_n_snoc {A} n (l : list A) x :
  last_n n (last_n n l ++ [x]) = last_n n (l ++ [x]).
Proof.
  rewrite <- (last_n_snoc n (last_n n l) x), last_n_last_n.
  apply last_n_snoc.
Qed.

(** The history of a channel is read from the channel's deque alone. *)
Lemma history_of_agree st st' cid :
  st !! cid = st' !! cid → history_of st cid = history_of st' cid.
Proof. intros Heq. by rewrite !history_of_lookup, Heq. Qed.

Lemma get_history_keeps st cid cid' :
  is_Some (st !! cid') → (get_history st cid).2 !! cid' = st !! cid'.
Proof.
  intros [d Hd]. destruct (decide (cid = cid')) as [<-|Hne].
  - by rewrite (get_history_present _ _ _ Hd).
  - by apply get_history_lookup_ne.
Qed.


Lemma respond_request_alone env st cid input :
  Forall (λ op, op_channel op ≠ cid) (during_typing env) →
  (respond env st cid input).2
  = request_messages
      (deque_append (get_history st cid).1
         {| role := "user"; content := Some input |})
  ∧ (respond env st cid input).1.2
    = generate_response env
        (deque_append (get_history st cid).1
           {| role := "user"; content := Some input |}).
Proof.
  intros Htyping. rewrite respond_unfold. simpl.
  assert (run_ops (add_to_history st cid "user" (Some input))
            (during_typing env) !! cid
          = Some (deque_append (get_history st cid).1
                    {| role := "user"; content := Some input |})) as Hd
    by by rewrite run_ops_lookup_ne, add_to_history_lookup.
  by rewrite (get_history_present _ _ _ Hd).
Qed.

Lemma respond_history env st cid input :
  well_formed st →
  Forall (λ op, op_channel op ≠ cid)
    (during_typing env ++ during_completion env) →
  history_of (respond env st cid input).1.1 cid
  = last_n capacity
      (history_of st cid
       ++ [{| role := "user"; content := Some input |};
           {| role := "assistant";
              content := (respond env st cid input).1.2 |}]).
Proof.
  intros Hst [Htyping Hcompletion]%Forall_app. rewrite respond_unfold. simpl.
  set (st1 := run_ops (add_to_history st cid "user" (Some input))
                (during_typing env)).
  assert (well_formed (run_ops (get_history st1 cid).2 (during_completion env)))
    as Hwf.
  { by apply run_ops_well_formed, get_history_well_formed,
      run_ops_well_formed, add_to_history_well_formed. }
  rewrite history_of_add_last_n by done.
  assert (history_of (run_ops (get_history st1 cid).2 (during_completion env))
            cid
          = history_of (add_to_history st cid "user" (Some input)) cid) as ->.
  { apply history_of_agree.
    rewrite run_ops_lookup_ne by done. unfold st1.
    rewrite get_history_keeps; [by rewrite run_ops_lookup_ne|].
    rewrite run_ops_lookup_ne, add_to_history_lookup by done. by eexists. }
  rewrite history_of_add_last_n by done.
  rewrite last_n_last_n_snoc. by rewrite <- app_assoc.
Qed.

Lemma dispatch_returned env chunks sent :
  dispatch env chunks = (sent, Returned) → omap event_chunk sent = chunks.
Proof.
  revert sent. induction chunks as [|c chunks IH]; intros sent; simpl.
  - by intros [= <-].
  - destruct (dispatch env chunks) as [sent' e'].
    destruct (reply_ok env c); [|destruct (send_ok env c)];
      intros [= <- ->]; simpl; by rewrite IH.
Qed.

(** A handler that returns after a completion call was a handler of a
    message to the bot with a reference that could be read, and it entered
    [typing()]. *)
Lemma on_message_returned_inv fuel env st m st' tr :
  author_bot m = false → addressed m = true → user_input env m ≠ "" →
  on_message fuel env st m = Some (st', tr, Returned) →
  is_reply m ≠ None ∧ typing_ok env = true.
Proof.
  intros Hbot Haddr Hin Hrun.
  destruct (is_reply m) as [reply|] eqn:Hrep.
  2: { by rewrite on_message_deleted_reference in Hrun. }
  destruct (typing_ok env) eqn:Htyping; [done|].
  by rewrite on_message_typing_failed in Hrun by (done || congruence).
Qed.





End orchestrator_more.

(** X7: in every store the process can reach, each channel's history has
    the capacity 15 and holds at most 15 entries. *)
Theorem reachable_histories_bounded st cid :
  reachable st →
  (length (history_of st cid) ≤ 15)%nat
  ∧ ∀ d, st !! cid = Some d → maxlen d = 15%nat.
Proof.
  intros Hst%reachable_is_well_formed. split.
  - by apply well_formed_history.
  - intros d Hd. by destruct (Hst cid d Hd).
Qed.

Lemma reachable_histories_bounded_witness :
  (length (history_of
             (reset (add_to_history
                       (add_to_history initial_store 7 "user" (Some "hi"))
                       7 "assistant" (Some "ok")) 7) 7) ≤ 15)%nat.
Proof.
  assert (on_message 0 answering_env initial_store (direct_message "hi")
          = Some (add_to_history
                    (add_to_history initial_store 7 "user" (Some "hi"))
                    7 "assistant" (Some "ok"),
                  [ApiCall (request_messages
                              (deque_append (deque_new capacity)
                                 {| role := "user"; content := Some "hi" |}));
                   Reply "ok"; ProcessCommands],
                  Returned)) as Hrun by reflexivity.
  refine (proj1 (reachable_histories_bounded _ 7 _)).
  apply reach_reset.
  apply (reach_message _ _ _ _ _ _ _ reach_start Hrun).
Defined.



(** X9: when a message to the bot gets as far as the completion call, and no
    other task touches its channel while the handler waits, the channel is
    left with the last 15 of the earlier history followed by the user turn and
    the assistant turn, in this order, the assistant turn holding what
    [generate_response] returned. *)
Theorem on_message_history fuel env st m st' tr e :
  well_formed st →
  author_bot m = false → is_reply m ≠ None → addressed m = true →
  user_input env m ≠ "" → typing_ok env = true →
  Forall (λ op, op_channel op ≠ channel_id m)
    (during_typing env ++ during_completion env) →
  on_message fuel env st m = Some (st', tr, e) →
  history_of st' (channel_id m)
  = last_n 15
      (history_of st (channel_id m)
       ++ [{| role := "user"; content := Some (user_input env m) |};
           {| role := "assistant";
              content :=
                generate_response env
                  (deque_append (get_history st (channel_id m)).1
                     {| role := "user";
                        content := Some (user_input env m) |}) |}]).
Proof.
  intros Hst Hbot Hrep Haddr Hin Htyping Hquiet Hrun.
  destruct (on_message_eligible_inv _ _ _ _ _ _ _ Hbot Hrep Haddr Hin Htyping
              Hrun) as [-> _].
  rewrite respond_history by done.
  apply Forall_app in Hquiet as [Hquiet _].
  by rewrite (proj2 (respond_request_alone env st _ _ Hquiet)).
Qed.

Lemma on_message_history_witness :
  history_of
    (add_to_history (add_to_history initial_store 7 "user" (Some "hi"))
       7 "assistant" (Some "ok")) 7
  = [{| role := "user"; content := Some "hi" |};
     {| role := "assistant"; content := Some "ok" |}].
Proof.
  refine (on_message_history 0 answering_env initial_store
            (direct_message "hi") _
            [ApiCall (request_messages
                        (deque_append (deque_new capacity)
                           {| role := "user"; content := Some "hi" |}));
             Reply "ok"; ProcessCommands] Returned _ _ _ _ _ _ _ _);
    [|reflexivity | discriminate | reflexivity | discriminate | reflexivity
     | constructor | reflexivity].
  intros cid d. unfold initial_store. rewrite lookup_empty. discriminate.
Defined.



(** X11: when the handler of a message to the bot returns, the chunks it put
    on the channel, joined in order, are the text it stored as the newest
    entry of the channel, under the assistant role. *)
Theorem on_message_sends_stored_text fuel env st m st' tr :
  bounded st →
  author_bot m = false → addressed m = true → user_input env m ≠ "" →
  on_message fuel env st m = Some (st', tr, Returned) →
  ∃ ai_text,
    last (history_of st' (channel_id m))
    = Some {| role := "assistant"; content := Some ai_text |}
    ∧ join (omap event_chunk tr) = ai_text.
Proof.
  intros Hst Hbot Haddr Hin Hrun.
  destruct (on_message_returned_inv _ _ _ _ _ _ Hbot Haddr Hin Hrun)
    as [Hrep Htyping].
  destruct (on_message_eligible_inv _ _ _ _ _ _ _ Hbot Hrep Haddr Hin Htyping
              Hrun)
    as [-> [(_ & _ & ?) | (text & chunks & sent & Htext & Hsplit & Hsent & ->)]];
    [done|].
  exists text. split.
  - by rewrite respond_last, Htext.
  - simpl. rewrite omap_app. simpl.
    rewrite app_nil_r, (dispatch_returned _ _ _ Hsent).
    by apply split_loop_join in Hsplit.
Qed.

Lemma on_message_sends_stored_text_witness :
  ∃ ai_text,
    last (history_of
            (add_to_history (add_to_history initial_store 7 "user" (Some "hi"))
               7 "assistant" (Some "ok")) 7)
    = Some {| role := "assistant"; content := Some ai_text |}
    ∧ join (omap event_chunk
              [ApiCall [system_msg;
                        {| role := "user"; content := Some "hi" |}];
               Reply "ok"; ProcessCommands])
      = ai_text.
Proof.
  refine (on_message_sends_stored_text 0 answering_env initial_store
            (direct_message "hi") _ _ _ _ _ _ _);
    [|reflexivity | reflexivity | discriminate | reflexivity].
  intros cid d. unfold initial_store. rewrite lookup_empty. discriminate.
Defined.

(** X12: [dispatch] goes through the chunks in order.  Every event is a
    reply that went through or a send after a failed reply; a run that
    returns has put every chunk on the channel, once and in order; a run that
    raises has done so for the chunks before the first one whose reply and
    send both fail, and for none after it. *)
Theorem dispatch_in_order env chunks sent e :
  dispatch env chunks = (sent, e) →
  Forall (λ ev, match ev with
                | Reply c => reply_ok env c = true
                | Send c => reply_ok env c = false ∧ send_ok env c = true
                | _ => False
                end) sent
  ∧ (e = Returned → omap event_chunk sent = chunks)
  ∧ (e = Raised → ∃ failed rest,
       chunks = omap event_chunk sent ++ failed :: rest
       ∧ reply_ok env failed = false ∧ send_ok env failed = false).
Proof.
  revert sent e. induction chunks as [|c chunks IH]; intros sent e; simpl.
  - intros [= <- <-]. split_and!; [done | done | discriminate].
  - destruct (dispatch env chunks) as [sent' e'].
    destruct (IH sent' e' eq_refl) as (Hall & Hret & Hraise).
    destruct (reply_ok env c) eqn:Hreply; [|destruct (send_ok env c) eqn:Hsend].
    + intros [= <- <-]. split_and!.
      * by constructor.
      * intros He. simpl. f_equal. by apply Hret.
      * intros He. destruct (Hraise He) as (failed & rest & -> & ?).
        by exists failed, rest.
    + intros [= <- <-]. split_and!.
      * by constructor.
      * intros He. simpl. f_equal. by apply Hret.
      * intros He. destruct (Hraise He) as (failed & rest & -> & ?).
        by exists failed, rest.
    + intros [= <- <-]. split_and!; [done | discriminate |].
      intros _. by exists c, chunks.
Qed.

Lemma dispatch_in_order_witness :
  omap event_chunk [Reply "a"; Reply "b"] = ["a"; "b"].
Proof.
  refine (proj1 (proj2 (dispatch_in_order answering_env ["a"; "b"]
                          [Reply "a"; Reply "b"] Returned _)) _);
    reflexivity.
Defined.





(** ** The text taken from a message *)

Section input_text.
Implicit Types (s t old new : string) (c : ascii).

Lemma all_space_cons c s :
  all_space (String c s) ↔ py_isspace c = true ∧ all_space s.
Proof.
  unfold all_space. cbn [list_ascii_of_string].
  exact (Forall_cons (λ a, py_isspace a = true) c (list_ascii_of_string s)).
Qed.

Lemma str_lstrip_empty s : str_lstrip s = "" ↔ all_space s.
Proof.
  induction s as [|c s IH]; simpl.
  - split; [intros _; constructor | done].
  - rewrite all_space_cons. destruct (py_isspace c).
    + rewrite IH. intuition congruence.
    + intuition congruence.
Qed.

Lemma str_rstrip_empty s : str_rstrip s = "" ↔ all_space s.
Proof.
  induction s as [|c s IH]; simpl.
  - split; [intros _; constructor | done].
  - rewrite all_space_cons, <- IH.
    destruct (str_rstrip s); [destruct (py_isspace c)|]; intuition congruence.
Qed.

Lemma all_space_lstrip s : all_space (str_lstrip s) ↔ all_space s.
Proof.
  induction s as [|c s IH]; simpl; [done|].
  destruct (py_isspace c) eqn:Hc; [|done].
  rewrite IH, all_space_cons. intuition congruence.
Qed.

Lemma str_strip_empty s : str_strip s = "" ↔ all_space s.
Proof. unfold str_strip. by rewrite str_rstrip_empty, all_space_lstrip. Qed.

Lemma str_lstrip_head s c :
  String.get 0 (str_lstrip s) = Some c → py_isspace c = false.
Proof.
  induction s as [|a s IH]; simpl; [done|].
  destruct (py_isspace a) eqn:Ha; [done|]. simpl. by intros [= <-].
Qed.

Lemma str_rstrip_head t c :
  String.get 0 (str_rstrip t) = Some c → String.get 0 t = Some c.
Proof.
  destruct t as [|a t]; simpl; [done|].
  destruct (str_rstrip t); [destruct (py_isspace a)|]; done.
Qed.

Lemma str_rstrip_last t c :
  String.get (String.length (str_rstrip t) - 1) (str_rstrip t) = Some c →
  py_isspace c = false.
Proof.
  induction t as [|a t IH]; simpl; [done|].
  destruct (str_rstrip t) as [|b r] eqn:Hr.
  - destruct (py_isspace a) eqn:Ha; simpl; [done|]. by intros [= <-].
  - simpl in *. by rewrite Nat.sub_0_r in *.
Qed.

Lemma str_rstrip_idemp t : str_rstrip (str_rstrip t) = str_rstrip t.
Proof.
  induction t as [|a t IH]; simpl; [done|].
  destruct (str_rstrip t) as [|b r] eqn:Hr.
  - destruct (py_isspace a) eqn:Ha; simpl; [done|]. by rewrite Ha.
  - change (str_rstrip (String a (String b r)))
      with (match str_rstrip (String b r) with
            | "" => if py_isspace a then "" else String a ""
            | r' => String a r'
            end).
    by rewrite IH.
Qed.

Lemma str_lstrip_fixed t :
  (∀ c, String.get 0 t = Some c → py_isspace c = false) → str_lstrip t = t.
Proof.
  destruct t as [|a t]; simpl; [done|].
  intros Hhead. by rewrite (Hhead a).
Qed.

Lemma prefix_append old s : String.prefix old (old +:+ s) = true.
Proof.
  induction old as [|a old IH]; [by destruct s|].
  rewrite append_cons. simpl. by destruct (ascii_dec a a).
Qed.

Lemma replace_go_skip old new p s :
  replace_go old new (p +:+ s) (String.length p) = replace_go old new s 0.
Proof.
  induction p as [|a p IH]; [by destruct s|].
  rewrite append_cons. simpl. apply IH.
Qed.

Lemma str_replace_leading old new s :
  old ≠ "" → str_replace (old +:+ s) old new = new +:+ str_replace s old new.
Proof.
  destruct old as [|a old]; [done|]. intros _. unfold str_replace.
  rewrite append_cons.
  change (replace_go (String a old) new (String a (old +:+ s)) 0)
    with (if String.prefix (String a old) (String a (old +:+ s))
          then new +:+ replace_go (String a old) new (old +:+ s)
                         (String.length (String a old) - 1)
          else String a (replace_go (String a old) new (old +:+ s) 0)).
  rewrite <- append_cons, prefix_append. simpl String.length.
  replace (S (String.length old) - 1)%nat with (String.length old) by lia.
  by rewrite replace_go_skip.
Qed.

Lemma absent_tail old c s : absent old (String c s) → absent old s.
Proof. intros Habs i. apply (Habs (S i)). Qed.

Lemma str_replace_absent old new s :
  old ≠ "" → absent old s → str_replace s old new = s.
Proof.
  destruct old as [|a old]; [done|]. intros _. unfold str_replace.
  induction s as [|c s IH]; [done|]. intros Habs.
  change (replace_go (String a old) new (String c s) 0)
    with (if String.prefix (String a old) (String c s)
          then new +:+ replace_go (String a old) new s
                         (String.length (String a old) - 1)
          else String c (replace_go (String a old) new s 0)).
  rewrite (Habs 0%nat : String.prefix _ (String c s) = false).
  f_equal. apply IH. by eapply absent_tail.
Qed.

Lemma mention_token_nonempty env : mention_token env ≠ "".
Proof. done. Qed.
End input_text.

(** X15: [str_strip] gives the empty string exactly for the strings made of
    white space only, so a message of a human to the bot whose reply
    reference, if any, is not to a deleted message is dropped, with nothing
    stored and nothing sent, exactly when its content without the mention
    tokens is white space only. *)
Theorem on_message_dropped_iff fuel env st m :
  author_bot m = false → is_reply m ≠ None → addressed m = true →
  (∀ s, str_strip s = "" ↔ all_space s)
  ∧ (on_message fuel env st m = Some (st, [], Returned)
     ↔ all_space (str_replace (msg_content m) (mention_token env) "")).
Proof.
  intros Hbot Hrep Haddr. split; [apply str_strip_empty|].
  rewrite <- str_strip_empty. fold (user_input env m). split.
  - intros Hrun. destruct (decide (user_input env m = "")) as [|Hin]; [done|].
    destruct (typing_ok env) eqn:Htyping.
    2: { by rewrite on_message_typing_failed in Hrun. }
    destruct (on_message_eligible_inv _ _ _ _ _ _ _ Hbot Hrep Haddr Hin Htyping
                Hrun) as [_ [(_ & ? & _) | (? & ? & ? & _ & _ & _ & ?)]];
      discriminate.
  - by apply on_message_empty_input.
Qed.

Lemma on_message_dropped_iff_witness :
  on_message 0 answering_env initial_store mention_only
  = Some (initial_store, [], Returned).
Proof.
  refine (proj2 (proj2 (on_message_dropped_iff 0 answering_env initial_store
                          mention_only _ _ _)) _);
    [reflexivity | discriminate | reflexivity |].
  vm_compute. repeat constructor.
Defined.

(** X16: the result of [str_strip] neither starts nor ends with white
    space, and stripping it again changes nothing. *)
Theorem str_strip_trimmed s :
  (∀ c, String.get 0 (str_strip s) = Some c → py_isspace c = false)
  ∧ (∀ c, String.get (String.length (str_strip s) - 1) (str_strip s) = Some c →
          py_isspace c = false)
  ∧ str_strip (str_strip s) = str_strip s.
Proof.
  assert (∀ c, String.get 0 (str_strip s) = Some c → py_isspace c = false)
    as Hhead.
  { intros c Hc. by apply str_rstrip_head, str_lstrip_head in Hc. }
  split_and!; [done | apply str_rstrip_last |].
  unfold str_strip at 1. rewrite str_lstrip_fixed by done.
  apply str_rstrip_idemp.
Qed.

Lemma str_strip_trimmed_witness :
  py_isspace "h" = false ∧ py_isspace "!" = false.
Proof.
  destruct (str_strip_trimmed "  hi there!  ") as (Hhead & Hlast & _).
  split; [apply Hhead | apply Hlast]; reflexivity.
Defined.

(** X17: the text taken from a message that opens with the bot's mention is
    the rest of the content, stripped, when the mention does not occur again
    in it; a content without the mention is only stripped. *)
Theorem user_input_mention env m rest :
  (msg_content m = mention_token env +:+ rest →
   absent (mention_token env) rest → user_input env m = str_strip rest)
  ∧ (absent (mention_token env) (msg_content m) →
     user_input env m = str_strip (msg_content m)).
Proof.
  unfold user_input. split.
  - intros -> Habs.
    rewrite str_replace_leading by apply mention_token_nonempty.
    by rewrite append_nil, str_replace_absent
      by (done || apply mention_token_nonempty).
  - intros Habs.
    by rewrite str_replace_absent by (done || apply mention_token_nonempty).
Qed.

Lemma user_input_mention_witness :
  user_input answering_env (direct_message "<@42> hello ") = "hello"
  ∧ user_input answering_env (direct_message " hello ") = "hello".
Proof.
  split.
  - refine (proj1 (user_input_mention answering_env
                     (direct_message "<@42> hello ") " hello ") _ _);
      [reflexivity|].
    intros i. do 8 (destruct i as [|i]; [reflexivity|]). reflexivity.
  - refine (proj2 (user_input_mention answering_env
                     (direct_message " hello ") "") _).
    intros i. do 8 (destruct i as [|i]; [reflexivity|]). reflexivity.
Defined.

(** X18: on a store whose histories have the capacity 15, what is added to
    a channel is what [get_history] then shows as its newest entry, the
    channel is in the store, and that [get_history] changes nothing. *)
Theorem add_then_get st cid r c :
  bounded st →
  last (items (get_history (add_to_history st cid r c) cid).1)
  = Some {| role := r; content := c |}
  ∧ is_Some (add_to_history st cid r c !! cid)
  ∧ (get_history (add_to_history st cid r c) cid).2
    = add_to_history st cid r c.
Proof.
  intros Hst. split_and!.
  - by apply add_to_history_last.
  - rewrite add_to_history_lookup. by eexists.
  - by rewrite (get_history_present _ _ _ (add_to_history_lookup st cid r c)).
Qed.

Lemma add_then_get_witness :
  last (items (get_history (add_to_history initial_store 7 "user" (Some "hi")) 7).1)
  = Some {| role := "user"; content := Some "hi" |}.
Proof.
  refine (proj1 (add_then_get initial_store 7 "user" (Some "hi") _)).
  intros cid d. unfold initial_store. rewrite lookup_empty. discriminate.
Defined.

